(** * DeFi yield aggregator: scoring, asset grouping, expiry sweep, fan-out hub

    A shallow embedding of the Go packages of the aggregator,
    - [analytics]: the scoring engine ([CalculateScore], [CalculateRiskLevel],
      [CalculateYieldGapProfit]),
    - [opportunity]: the grouping of pools by asset ([normalizeAsset]) and
      the yield gap of one group ([DetectYieldGaps]),
    - [postgres]: the writes to the table [opportunities]
      ([UpsertOpportunity], [DeactivateExpiredOpportunities]), the table
      [pools] ([UpsertPool], [GetPool]) and the statement of [ListPools],
    - [websocket]: the connection hub ([Run], [BroadcastPoolUpdate],
      [BroadcastOpportunityAlert]),
    - [defillama] and the worker: the retries of [FetchPools], [ToPoolModel]
      and the writes of [runDeFiLlamaJob],
    followed by the properties of these functions.

    Numbers.  The analytics code computes on [float64] and uses [math.Log10].
    A [float64] is modelled by a real number: rounding, infinities and NaN are
    not modelled, so every statement below is about the exact-arithmetic
    reading of the Go code.  A [decimal.Decimal] is modelled by a real as well
    and the conversions [Float64] and [NewFromFloat] are the identity. *)

From Stdlib Require Import Reals Lra Lia ZArith Ascii String DecimalString.
From stdpp Require Import base option list gmap sets strings.

(* ===================================================================== *)
(** * Definitions *)
(* ===================================================================== *)

(** ** Package [models] *)

Module models.

(** Both are names for the reals (abbreviations, so that they unify). *)
Abbreviation float64 := R (only parsing).
Abbreviation decimal := R (only parsing).

(** [time.Time], as a number of microseconds since the epoch. *)
Definition Time : Type := Z.

(** [d.Float64()] and [decimal.NewFromFloat(f)]. *)
Definition Float64 (d : decimal) : float64 := d.
Definition NewFromFloat (f : float64) : decimal := f.

(** [type Pool struct]. *)
Record Pool : Type := mkPool {
  ID : string;
  Chain : string;
  Protocol : string;
  Symbol : string;
  TVL : decimal;
  APY : decimal;
  APYBase : decimal;
  APYReward : decimal;
  RewardTokens : list string;
  UnderlyingTokens : list string;
  PoolMeta : string;
  IL7D : decimal;
  APYMean30D : decimal;
  VolumeUSD1D : decimal;
  VolumeUSD7D : decimal;
  Score : decimal;
  APYChange1H : decimal;
  APYChange24H : decimal;
  APYChange7D : decimal;
  StableCoin : bool;
  Exposure : string;
  CreatedAt : Time;
  UpdatedAt : Time
}.

(** Assignments [pool.APY = v], [pool.TVL = v], [pool.Score = v]:
    every other field keeps its value. *)
Definition set_APY (v : decimal) (p : Pool) : Pool :=
  mkPool (ID p) (Chain p) (Protocol p) (Symbol p) (TVL p) v (APYBase p)
    (APYReward p) (RewardTokens p) (UnderlyingTokens p) (PoolMeta p) (IL7D p)
    (APYMean30D p) (VolumeUSD1D p) (VolumeUSD7D p) (Score p) (APYChange1H p)
    (APYChange24H p) (APYChange7D p) (StableCoin p) (Exposure p)
    (CreatedAt p) (UpdatedAt p).

Definition set_TVL (v : decimal) (p : Pool) : Pool :=
  mkPool (ID p) (Chain p) (Protocol p) (Symbol p) v (APY p) (APYBase p)
    (APYReward p) (RewardTokens p) (UnderlyingTokens p) (PoolMeta p) (IL7D p)
    (APYMean30D p) (VolumeUSD1D p) (VolumeUSD7D p) (Score p) (APYChange1H p)
    (APYChange24H p) (APYChange7D p) (StableCoin p) (Exposure p)
    (CreatedAt p) (UpdatedAt p).


(** [type RiskLevel string] with its three constants. *)
Inductive RiskLevel : Type :=
| RiskLevelLow
| RiskLevelMedium
| RiskLevelHigh.

(** The order low < medium < high, as a rank. *)
Definition risk_rank (r : RiskLevel) : nat :=
  match r with
  | RiskLevelLow => 0
  | RiskLevelMedium => 1
  | RiskLevelHigh => 2
  end.

(** [type OpportunityType string] with its three constants. *)
Inductive OpportunityType : Type :=
| OpportunityTypeYieldGap
| OpportunityTypeTrending
| OpportunityTypeHighScore.

(** [type Opportunity struct], the 22 columns of table [opportunities].  The
    three pointer fields tagged [db:"-"] are not stored. *)
Module Opportunity.
Record t : Type := mk {
  ID : string;
  Type_ : OpportunityType;
  Title : string;
  Description : string;
  SourcePoolID : string;
  TargetPoolID : string;
  PoolID : string;
  Asset : string;
  Chain : string;
  APYDifference : decimal;
  APYGrowth : decimal;
  CurrentAPY : decimal;
  PotentialProfit : decimal;
  TVL : decimal;
  RiskLevel_ : RiskLevel;
  Score : decimal;
  IsActive : bool;
  DetectedAt : Time;
  LastSeenAt : Time;
  ExpiresAt : Time;
  CreatedAt : Time;
  UpdatedAt : Time
}.
End Opportunity.

(** [type PoolFilter struct]; [ListPools] also reads a field [Search].  A nil
    [*bool] is [None]; [Limit] and [Offset] are Go [int]s. *)
Module PoolFilter.
Record t : Type := mk {
  Chain : string;
  Protocol : string;
  Symbol : string;
  Search : string;
  MinAPY : decimal;
  MaxAPY : decimal;
  MinTVL : decimal;
  MaxTVL : decimal;
  MinScore : decimal;
  StableCoin : option bool;
  SortBy : string;
  SortOrder : string;
  Limit : Z;
  Offset : Z
}.
End PoolFilter.

End models.

(** ** Package [config] *)

Module config.

(** [type ScoringConfig struct]. *)
Record ScoringConfig : Type := mkScoringConfig {
  APYWeight : R;
  TVLWeight : R;
  StabilityWeight : R;
  TrendWeight : R
}.

(** The defaults of [config.Load] (also the weights of the unit tests). *)
Definition defaultScoring : ScoringConfig :=
  mkScoringConfig 0.35%R 0.25%R 0.25%R 0.15%R.

End config.

(** ** Package [math] *)

Module math.

Local Open Scope R_scope.

Definition Log10 (x : R) : R := ln x / ln 10.
Definition Min (x y : R) : R := Rmin x y.
Definition Max (x y : R) : R := Rmax x y.
Definition Abs (x : R) : R := Rabs x.

(** [int(math.Ceil(x))]: the least integer not below [x].  [up y] is the
    integer just above [y], so [up (- x) - 1] is the floor of [- x]. *)
Definition Ceil (x : R) : Z := (1 - up (- x))%Z.

End math.

(** ** Package [analytics] *)

Module analytics.

Import models config.
Local Open Scope R_scope.

(** [var chainSecurityRatings = map[string]float64{...}]. *)
Definition chainSecurityRatings : gmap string R :=
  list_to_map
    [ ("ethereum", 95); ("bsc", 75); ("polygon", 80); ("arbitrum", 85);
      ("optimism", 85); ("avalanche", 80); ("fantom", 70); ("base", 80);
      ("gnosis", 75); ("celo", 70); ("moonbeam", 65); ("moonriver", 60);
      ("aurora", 65); ("cronos", 60); ("harmony", 50); ("metis", 60);
      ("boba", 55); ("kava", 65); ("solana", 75) ]%string.

Definition normalizeAPY (apy : float64) : float64 :=
  if Rle_dec apy 0 then 0
  else
    let logAPY := math.Log10 (apy + 1) in
    let maxLogAPY := math.Log10 10001 in
    let normalized := logAPY / maxLogAPY in
    math.Min 1 normalized.

Definition normalizeTVL (tvl : float64) : float64 :=
  if Rle_dec tvl 0 then 0
  else
    let logTVL := math.Log10 tvl in
    let minLog := 3 in
    let maxLog := 10 in
    let normalized := (logTVL - minLog) / (maxLog - minLog) in
    math.Max 0 (math.Min 1 normalized).

Definition calculateStability (currentAPY meanAPY : float64) : float64 :=
  if Rle_dec meanAPY 0 then 0.5
  else
    let deviation := math.Abs (currentAPY - meanAPY) / meanAPY in
    let stability := 1 - math.Min 1 deviation in
    stability.

Definition normalizeTrend (change24h : float64) : float64 :=
  let change := math.Max (-100) (math.Min 100 change24h) in
  let normalized := (change + 100) / 200 in
  normalized.

(** [rating, ok := chainSecurityRatings[chain]; if !ok { rating = 50 }]. *)
Definition getChainSecurityMultiplier (chain : string) : float64 :=
  let rating :=
    match chainSecurityRatings !! chain with
    | Some rating => rating
    | None => 50
    end in
  0.5 + rating / 200.

(** [func (s *Service) CalculateScore(pool *models.Pool) decimal.Decimal];
    the receiver's only field is [s.weights]. *)
Definition CalculateScore (weights : ScoringConfig) (pool : Pool) : decimal :=
  let apy := Float64 (APY pool) in
  let normalizedAPY := normalizeAPY apy in
  let tvl := Float64 (TVL pool) in
  let normalizedTVL := normalizeTVL tvl in
  let apyMean30d := Float64 (APYMean30D pool) in
  let stability := calculateStability apy apyMean30d in
  let change24h := Float64 (APYChange24H pool) in
  let normalizedTrend := normalizeTrend change24h in
  let chainMultiplier := getChainSecurityMultiplier (Chain pool) in
  let score :=
    APYWeight weights * normalizedAPY
    + TVLWeight weights * normalizedTVL
    + StabilityWeight weights * stability
    + TrendWeight weights * normalizedTrend in
  let score := score * chainMultiplier in
  let score := score * 100 in
  NewFromFloat (math.Max 0 (math.Min 100 score)).

(** The value of [score] in [CalculateScore] after its first assignment: the
    weighted sum, before the chain multiplier is applied. *)
Definition weightedSum (weights : ScoringConfig) (pool : Pool) : float64 :=
  APYWeight weights * normalizeAPY (Float64 (APY pool))
  + TVLWeight weights * normalizeTVL (Float64 (TVL pool))
  + StabilityWeight weights
    * calculateStability (Float64 (APY pool)) (Float64 (APYMean30D pool))
  + TrendWeight weights * normalizeTrend (Float64 (APYChange24H pool)).

(** [gasCosts] of [estimateGasCost]. *)
Definition gasCosts : gmap string R :=
  list_to_map
    [ ("ethereum", 50); ("arbitrum", 1); ("optimism", 1); ("polygon", 0.1);
      ("bsc", 0.5); ("avalanche", 0.5); ("fantom", 0.1); ("base", 0.5);
      ("gnosis", 0.1) ]%string.

Definition estimateGasCost (chain : string) : float64 :=
  match gasCosts !! chain with
  | Some cost => cost
  | None => 10
  end.

(** [func (s *Service) CalculateYieldGapProfit(lowAPY, highAPY, tvl,
    sourceChain, targetChain) (profit float64, minDays int)].  The named
    results start at zero; the inner [if apyDiff > 0] is kept as written. *)
Definition CalculateYieldGapProfit (lowAPY highAPY tvl : float64)
    (sourceChain targetChain : string) : float64 * Z :=
  let apyDiff := highAPY - lowAPY in
  if Rle_dec apyDiff 0 then (0, 0%Z)
  else
    let gasCostUSD := estimateGasCost sourceChain + estimateGasCost targetChain in
    if Rgt_dec apyDiff 0 then
      let minInvestment := gasCostUSD * 365 / (apyDiff * 7) in
      let minDays := math.Ceil (gasCostUSD * 365 / (apyDiff * 10000)) in
      let investmentAmount := 10000 in
      let profit := investmentAmount * apyDiff / 100 / 365 * 30 - gasCostUSD in
      if Rlt_dec profit 0 then (0, 0%Z)
      else if Rgt_dec minInvestment 100000 then (0, 0%Z)
      else (profit, minDays)
    else (0, 0%Z).

(** The counter [riskFactors] of [CalculateRiskLevel] after its six tests.
    A chain that is not a key of [chainSecurityRatings] reads as the zero
    value of [float64]. *)
Definition riskFactors (pool : Pool) : nat :=
  let score := Float64 (Score pool) in
  let tvl := Float64 (TVL pool) in
  let apy := Float64 (APY pool) in
  let riskFactors := 0%nat in
  let riskFactors := if Rgt_dec apy 100 then S riskFactors else riskFactors in
  let riskFactors := if Rgt_dec apy 500 then S riskFactors else riskFactors in
  let riskFactors := if Rlt_dec tvl 100000 then S riskFactors else riskFactors in
  let riskFactors := if Rlt_dec tvl 10000 then S riskFactors else riskFactors in
  let riskFactors := if Rlt_dec score 30 then S riskFactors else riskFactors in
  let chainRating := default 0 (chainSecurityRatings !! Chain pool) in
  let riskFactors := if Rlt_dec chainRating 60 then S riskFactors else riskFactors in
  riskFactors.

(** [func (s *Service) CalculateRiskLevel(pool *models.Pool) models.RiskLevel]:
    the final [switch] on the counter. *)
Definition CalculateRiskLevel (pool : Pool) : RiskLevel :=
  let riskFactors := riskFactors pool in
  if (3 <=? riskFactors)%nat then RiskLevelHigh
  else if (1 <=? riskFactors)%nat then RiskLevelMedium
  else RiskLevelLow.

End analytics.

(** ** Package [strings] of the Go library

    A symbol is modelled as a string of bytes.  [ToUpper] and [TrimSpace] act
    on the ASCII letters and the ASCII white space; bytes above 127 are left
    alone (Go decodes them as UTF-8 runes). *)

Module gostrings.

Definition upperByte (c : ascii) : ascii :=
  let n := nat_of_ascii c in
  if (97 <=? n)%nat && (n <=? 122)%nat then ascii_of_nat (n - 32) else c.

Fixpoint ToUpper (s : string) : string :=
  match s with
  | EmptyString => EmptyString
  | String c s' => String (upperByte c) (ToUpper s')
  end.

Definition HasPrefix (s prefix : string) : bool := String.prefix prefix s.

(** [len(s) >= len(suffix) && s[len(s)-len(suffix):] == suffix]. *)
Definition HasSuffix (s suffix : string) : bool :=
  (String.length suffix <=? String.length s)%nat
  && String.eqb (substring (String.length s - String.length suffix)
                           (String.length suffix) s) suffix.

(** [Split] for a non-empty separator: scan [s] from the left, cut at each
    occurrence of [sep] and resume after it ([skip] counts the bytes of the
    separator still to be passed over). *)
Fixpoint splitFrom (sep : string) (skip : nat) (s : string) : list string :=
  match s with
  | EmptyString => [EmptyString]
  | String c s' =>
      match skip with
      | S skip' => splitFrom sep skip' s'
      | O =>
          if String.prefix sep s
          then EmptyString :: splitFrom sep (String.length sep - 1) s'
          else match splitFrom sep 0 s' with
               | tok :: rest => String c tok :: rest
               | [] => [String c EmptyString]
               end
      end
  end.

Definition explode (s : string) : list string :=
  (fun c => String c EmptyString) <$> list_ascii_of_string s.

Definition Split (s sep : string) : list string :=
  match sep with
  | EmptyString => explode s
  | _ => splitFrom sep 0 s
  end.

(** Tab, line feed, vertical tab, form feed, carriage return, space. *)
Definition isSpace (c : ascii) : bool :=
  let n := nat_of_ascii c in
  ((9 <=? n)%nat && (n <=? 13)%nat) || (n =? 32)%nat.

Fixpoint trimLeft (s : string) : string :=
  match s with
  | EmptyString => EmptyString
  | String c s' => if isSpace c then trimLeft s' else s
  end.

Fixpoint trimRight (s : string) : string :=
  match s with
  | EmptyString => EmptyString
  | String c s' =>
      match trimRight s' with
      | EmptyString => if isSpace c then EmptyString else String c EmptyString
      | t => String c t
      end
  end.

Definition TrimSpace (s : string) : string := trimRight (trimLeft s).

End gostrings.

(** ** Package [opportunity]: grouping of pools by asset *)

Module opportunity.

Import models gostrings.

Definition singleAssets : list string :=
  ["USDC"; "USDT"; "DAI"; "FRAX"; "LUSD"; "BUSD"; "ETH"; "WETH"; "BTC"; "WBTC";
   "MATIC"; "AVAX"; "FTM"; "BNB"].

Definition separators : list string := ["-"; "/"; "_"].

(** The first loop of [normalizeAsset]:
    [for _, asset := range singleAssets { if ... { return asset } }]. *)
Fixpoint matchSingleAsset (symbol : string) (assets : list string) : option string :=
  match assets with
  | [] => None
  | asset :: assets' =>
      if String.eqb symbol asset
         || HasPrefix symbol (asset +:+ "-")
         || HasSuffix symbol ("-" +:+ asset)
      then Some asset
      else matchSingleAsset symbol assets'
  end.

(** The second loop:
    [for _, sep := range separators { parts := strings.Split(symbol, sep);
       if len(parts) >= 2 { return strings.TrimSpace(parts[0]) } }]. *)
Fixpoint splitOnSeparator (symbol : string) (seps : list string) : option string :=
  match seps with
  | [] => None
  | sep :: seps' =>
      let parts := Split symbol sep in
      if (2 <=? List.length parts)%nat
      then Some (TrimSpace (hd EmptyString parts))
      else splitOnSeparator symbol seps'
  end.

(** [func normalizeAsset(symbol string) string]. *)
Definition normalizeAsset (symbol : string) : string :=
  let symbol := ToUpper symbol in
  match matchSingleAsset symbol singleAssets with
  | Some asset => asset
  | None =>
      match splitOnSeparator symbol separators with
      | Some token => token
      | None => symbol
      end
  end.

(** [func groupPoolsByAsset(pools []models.Pool) map[string][]models.Pool]:
    [groups[asset] = append(groups[asset], pool)], a missing key reading as
    the nil slice. *)
Definition groupStep (groups : gmap string (list Pool)) (pool : Pool)
    : gmap string (list Pool) :=
  let asset := normalizeAsset (Symbol pool) in
  if String.eqb asset EmptyString then groups
  else <[asset := default [] (groups !! asset) ++ [pool]]> groups.

Definition groupPoolsByAsset (pools : list Pool) : gmap string (list Pool) :=
  foldl groupStep ∅ pools.

Section YieldGap.

(** The two [fmt.Sprintf] calls that build [Title] and [Description]. *)
Variable formatTitle : string -> R -> string.
Variable formatDescription : string -> Pool -> Pool -> R -> Z -> string.


End YieldGap.

(** The filter that [DetectHighScorePools] passes to [ListPools]; the fields
    it does not name hold their zero values. *)
Definition highScoreFilter (MinTVLThreshold MinAPYThreshold : R) : PoolFilter.t :=
  PoolFilter.mk EmptyString EmptyString EmptyString EmptyString
    (NewFromFloat MinAPYThreshold) 0%R (NewFromFloat MinTVLThreshold) 0%R
    (NewFromFloat 70) None "score" "desc" 100%Z 0%Z.

End opportunity.

(** ** Package [postgres]: the table [opportunities]

    The table is a finite map from the primary key [id] to the row.  [NOW()]
    is an argument.  A failing [Exec] is not modelled. *)

Module postgres.

Import models.
Import Opportunity.

(** [ON CONFLICT (id) DO UPDATE SET title = EXCLUDED.title, ...]:
    nine columns are overwritten, the other thirteen are kept. *)
Definition onConflictUpdate (now : Time) (row excluded : Opportunity.t)
    : Opportunity.t :=
  mk (ID row) (Type_ row) (Title excluded) (Description excluded)
     (SourcePoolID row) (TargetPoolID row) (PoolID row) (Asset row) (Chain row)
     (APYDifference row) (APYGrowth row) (CurrentAPY excluded)
     (PotentialProfit excluded) (TVL excluded) (RiskLevel_ row) (Score excluded)
     (IsActive excluded) (DetectedAt row) (LastSeenAt excluded) (ExpiresAt row)
     (CreatedAt row) now.

(** [func (r *Repository) UpsertOpportunity(ctx, opp)]. *)
Definition UpsertOpportunity (now : Time) (opp : Opportunity.t)
    (tbl : gmap string Opportunity.t) : gmap string Opportunity.t :=
  match tbl !! ID opp with
  | None => <[ID opp := opp]> tbl
  | Some row => <[ID opp := onConflictUpdate now row opp]> tbl
  end.

(** [SET is_active = false, updated_at = NOW()]. *)
Definition setInactive (now : Time) (row : Opportunity.t) : Opportunity.t :=
  mk (ID row) (Type_ row) (Title row) (Description row)
     (SourcePoolID row) (TargetPoolID row) (PoolID row) (Asset row) (Chain row)
     (APYDifference row) (APYGrowth row) (CurrentAPY row)
     (PotentialProfit row) (TVL row) (RiskLevel_ row) (Score row)
     false (DetectedAt row) (LastSeenAt row) (ExpiresAt row)
     (CreatedAt row) now.

(** [WHERE is_active = true AND expires_at < NOW()]. *)
Definition expired (now : Time) (row : Opportunity.t) : bool :=
  IsActive row && (ExpiresAt row <? now)%Z.

(** [func (r *Repository) DeactivateExpiredOpportunities(ctx)]. *)
Definition DeactivateExpiredOpportunities (now : Time)
    (tbl : gmap string Opportunity.t) : gmap string Opportunity.t :=
  (fun row => if expired now row then setInactive now row else row) <$> tbl.

(** One write of the detection job [runOpportunityDetectionJob]: the sweep,
    or the upsert of a detection result.  Every scan builds its results with
    [ID: uuid.New().String()]; the freshness of that identifier is the
    premise [tbl !! ID opp = None]. *)
Inductive step : gmap string Opportunity.t -> gmap string Opportunity.t -> Prop :=
| step_sweep (now : Time) (tbl : gmap string Opportunity.t) :
    step tbl (DeactivateExpiredOpportunities now tbl)
| step_upsert (now : Time) (opp : Opportunity.t) (tbl : gmap string Opportunity.t) :
    tbl !! ID opp = None ->
    step tbl (UpsertOpportunity now opp tbl).

(** The states reachable from [tbl]: any number of such writes. *)
Definition reachable (tbl tbl' : gmap string Opportunity.t) : Prop := rtc step tbl tbl'.

(** *** The table [pools] *)






(** *** The statement that [ListPools] sends *)

(** A bound argument of a statement. *)
Inductive arg : Type :=
| ArgString (s : string)
| ArgDecimal (d : R)
| ArgBool (b : bool)
| ArgInt (n : Z).

(** The verb [%d] of [fmt.Sprintf] on a counter. *)
Definition fmt_d (n : nat) : string := NilZero.string_of_uint (Nat.to_uint n).

(** [s != ""], [!d.IsZero()] and [p != nil]. *)
Definition nonEmpty (s : string) : bool := negb (String.eqb s EmptyString).
Definition nonZero (d : R) : bool := if Req_dec_T d 0 then false else true.
Definition nonNil {A : Type} (p : option A) : bool :=
  match p with Some _ => true | None => false end.

(** The four variables [query], [countQuery], [args] and [argCount]. *)
Record builder : Type := mkBuilder {
  query : string;
  countQuery : string;
  args : list arg;
  argCount : nat
}.

(** One block of the form
    [argCount++; query += Sprintf(clause, argCount); countQuery += ...;
     args = append(args, a)]. *)
Definition addCondition (clause : nat -> string) (a : arg) (b : builder) : builder :=
  let argCount := S (argCount b) in
  mkBuilder (query b +:+ clause argCount) (countQuery b +:+ clause argCount)
    (args b ++ [a]) argCount.

(** The raw string literal that [query] starts from, with the line breaks
    and tabs of the source. *)
Definition selectPools : string := "
		SELECT
			id, chain, protocol, symbol, tvl, apy, apy_base, apy_reward,
			reward_tokens, underlying_tokens, pool_meta, il_7d, apy_mean_30d,
			volume_usd_1d, volume_usd_7d, score, apy_change_1h, apy_change_24h,
			apy_change_7d, stablecoin, exposure, created_at, updated_at
		FROM pools
		WHERE 1=1
	".

(** The nine [if] blocks of [ListPools], in the order of the source. *)
Definition applyFilters (filter : PoolFilter.t) (b : builder) : builder :=
  let b := if nonEmpty (PoolFilter.Chain filter)
           then addCondition
                  (fun n => " AND LOWER(chain) = LOWER($" +:+ fmt_d n +:+ ")")
                  (ArgString (PoolFilter.Chain filter)) b
           else b in
  let b := if nonEmpty (PoolFilter.Protocol filter)
           then addCondition
                  (fun n => " AND LOWER(protocol) = LOWER($" +:+ fmt_d n +:+ ")")
                  (ArgString (PoolFilter.Protocol filter)) b
           else b in
  let b := if nonEmpty (PoolFilter.Symbol filter)
           then addCondition
                  (fun n => " AND symbol ILIKE $" +:+ fmt_d n)
                  (ArgString ("%" +:+ PoolFilter.Symbol filter +:+ "%")) b
           else b in
  let b := if nonEmpty (PoolFilter.Search filter)
           then addCondition
                  (fun n => " AND (symbol ILIKE $" +:+ fmt_d n
                            +:+ " OR protocol ILIKE $" +:+ fmt_d n
                            +:+ " OR chain ILIKE $" +:+ fmt_d n
                            +:+ " OR pool_meta ILIKE $" +:+ fmt_d n +:+ ")")
                  (ArgString ("%" +:+ PoolFilter.Search filter +:+ "%")) b
           else b in
  let b := if nonZero (PoolFilter.MinAPY filter)
           then addCondition (fun n => " AND apy >= $" +:+ fmt_d n)
                  (ArgDecimal (PoolFilter.MinAPY filter)) b
           else b in
  let b := if nonZero (PoolFilter.MaxAPY filter)
           then addCondition (fun n => " AND apy <= $" +:+ fmt_d n)
                  (ArgDecimal (PoolFilter.MaxAPY filter)) b
           else b in
  let b := if nonZero (PoolFilter.MinTVL filter)
           then addCondition (fun n => " AND tvl >= $" +:+ fmt_d n)
                  (ArgDecimal (PoolFilter.MinTVL filter)) b
           else b in
  let b := if nonZero (PoolFilter.MaxTVL filter)
           then addCondition (fun n => " AND tvl <= $" +:+ fmt_d n)
                  (ArgDecimal (PoolFilter.MaxTVL filter)) b
           else b in
  match PoolFilter.StableCoin filter with
  | Some stableCoin =>
      addCondition (fun n => " AND stablecoin = $" +:+ fmt_d n) (ArgBool stableCoin) b
  | None => b
  end.

(** [sortColumn] and [sortOrder] of [ListPools]. *)
Definition sortColumn (filter : PoolFilter.t) : string :=
  if String.eqb (PoolFilter.SortBy filter) "apy" then "apy"
  else if String.eqb (PoolFilter.SortBy filter) "score" then "score"
  else if String.eqb (PoolFilter.SortBy filter) "tvl" then "tvl"
  else "tvl".

Definition sortOrder (filter : PoolFilter.t) : string :=
  if String.eqb (PoolFilter.SortOrder filter) "asc" then "ASC" else "DESC".

(** What [ListPools] sends to the database: the count statement with its
    arguments, then the select statement with its arguments. *)
Definition ListPools_query (filter : PoolFilter.t)
    : (string * list arg) * (string * list arg) :=
  let b := applyFilters filter
             (mkBuilder selectPools "SELECT COUNT(*) FROM pools WHERE 1=1" [] 0) in
  let count := (countQuery b, args b) in
  let query := query b +:+ " ORDER BY " +:+ sortColumn filter +:+ " " +:+ sortOrder filter in
  let argCount := S (argCount b) in
  let query := query +:+ " LIMIT $" +:+ fmt_d argCount in
  let args := args b ++ [ArgInt (PoolFilter.Limit filter)] in
  let argCount := S argCount in
  let query := query +:+ " OFFSET $" +:+ fmt_d argCount in
  let args := args ++ [ArgInt (PoolFilter.Offset filter)] in
  (count, (query, args)).

(** What the statement can depend on: which filters are set together with
    the sort column and direction fix its text, the filter values fix its
    arguments.  [MinScore], and [SortBy] and [SortOrder] beyond the column
    and direction they select, are in neither. *)
Definition shape (filter : PoolFilter.t) : list bool * string * string :=
  ([ nonEmpty (PoolFilter.Chain filter); nonEmpty (PoolFilter.Protocol filter);
     nonEmpty (PoolFilter.Symbol filter); nonEmpty (PoolFilter.Search filter);
     nonZero (PoolFilter.MinAPY filter); nonZero (PoolFilter.MaxAPY filter);
     nonZero (PoolFilter.MinTVL filter); nonZero (PoolFilter.MaxTVL filter);
     nonNil (PoolFilter.StableCoin filter) ],
   sortColumn filter, sortOrder filter).

(** Two states of the builder that agree on everything but the values of
    the arguments. *)
Definition sameText (b1 b2 : builder) : Prop :=
  query b1 = query b2 /\ countQuery b1 = countQuery b2
  /\ argCount b1 = argCount b2 /\ length (args b1) = length (args b2).

Definition values (filter : PoolFilter.t)
    : list string * list R * option bool * Z * Z :=
  ([ PoolFilter.Chain filter; PoolFilter.Protocol filter;
     PoolFilter.Symbol filter; PoolFilter.Search filter ],
   [ PoolFilter.MinAPY filter; PoolFilter.MaxAPY filter;
     PoolFilter.MinTVL filter; PoolFilter.MaxTVL filter ],
   PoolFilter.StableCoin filter, PoolFilter.Limit filter, PoolFilter.Offset filter).

(** The writes of [runOpportunityDetectionJob] in the worker: the sweep first,
    then one upsert per detection result, for the yield gaps, the trending
    pools and the high scores in turn.  Each statement reads its own [NOW()],
    so a result comes with the time of its upsert. *)
Definition upsertAll (results : list (Time * Opportunity.t))
    (tbl : gmap string Opportunity.t) : gmap string Opportunity.t :=
  foldl (fun tbl r => UpsertOpportunity (fst r) (snd r) tbl) tbl results.

Definition runOpportunityDetectionJob (now : Time)
    (yieldGaps trending highScore : list (Time * Opportunity.t))
    (tbl : gmap string Opportunity.t) : gmap string Opportunity.t :=
  let tbl := DeactivateExpiredOpportunities now tbl in
  let tbl := upsertAll yieldGaps tbl in
  let tbl := upsertAll trending tbl in
  upsertAll highScore tbl.

End postgres.

(** ** Package [websocket]: the hub

    A [*Client] is an address; the client objects live in a store [mem] that
    the three sets of the hub point into, so that a send or a [close] through
    one set is seen through the others.  A buffered channel is its queue, its
    capacity and whether it has been closed.  Every function below is one
    critical section of the Go code run to completion; a Go panic is the
    outcome [Panic]. *)

Module websocket.

Import models.

Inductive MessageType : Type :=
| MessageTypePoolUpdate
| MessageTypePoolsSnapshot
| MessageTypeOpportunityAlert
| MessageTypePing
| MessageTypePong
| MessageTypeError.

(** [type Message struct]; [Timestamp] before its RFC 3339 formatting. *)
Record Message : Type := mkMessage {
  Type_ : MessageType;
  Timestamp : Time;
  Data : string
}.

(** [chan []byte]. *)
Record chan : Type := mkChan {
  queue : list string;
  capacity : nat;
  closed : bool
}.

(** [type Client struct]: its identifier and its [Send] channel. *)
Record Client : Type := mkClient {
  ID : string;
  Send : chan
}.

(** [type Hub struct] (its three maps used as sets) and the client store. *)
Record Hub : Type := mkHub {
  clients : gset positive;
  poolClients : gset positive;
  opportunityClients : gset positive;
  mem : gmap positive Client
}.

Inductive outcome (A : Type) : Type :=
| Done (a : A)
| Panic.
Arguments Done {A} a.
Arguments Panic {A}.

(** [select { case ch <- m: default: }]. *)
Inductive sendResult : Type :=
| Sent (ch : chan)
| Full
| SendOnClosed.

Definition trySend (ch : chan) (m : string) : sendResult :=
  if closed ch then SendOnClosed
  else if (List.length (queue ch) <? capacity ch)%nat
       then Sent (mkChan (queue ch ++ [m]) (capacity ch) false)
       else Full.

(** [close(ch)]; closing a closed channel panics. *)
Definition close (ch : chan) : outcome chan :=
  if closed ch then Panic else Done (mkChan (queue ch) (capacity ch) true).

(** [make(chan []byte, 256)] in [NewClient]. *)
Definition NewClient (id : string) : Client := mkClient id (mkChan [] 256 false).

(** The loop [for client := range targets { select { case client.Send <- m:
    default: deadClients = append(deadClients, client) } }], over the targets
    in the order [targets]. *)
Fixpoint sendAll (m : string) (targets : list positive)
    (mem : gmap positive Client) (deadClients : list positive)
    : outcome (gmap positive Client * list positive) :=
  match targets with
  | [] => Done (mem, deadClients)
  | client :: targets' =>
      match mem !! client with
      | None => Panic
      | Some c =>
          match trySend (Send c) m with
          | Sent ch => sendAll m targets' (<[client := mkClient (ID c) ch]> mem) deadClients
          | Full => sendAll m targets' mem (deadClients ++ [client])
          | SendOnClosed => Panic
          end
      end
  end.

(** The body shared by the [unregister] case and the dead-client loop of
    [Run]: [if _, ok := h.clients[client]; ok { delete x3; close(client.Send) }]. *)
Definition evict (client : positive) (h : Hub) : outcome Hub :=
  if decide (client ∈ clients h) then
    match mem h !! client with
    | None => Panic
    | Some c =>
        match close (Send c) with
        | Panic => Panic
        | Done ch =>
            Done (mkHub (clients h ∖ {[client]}) (poolClients h ∖ {[client]})
                        (opportunityClients h ∖ {[client]})
                        (<[client := mkClient (ID c) ch]> (mem h)))
        end
    end
  else Done h.

Fixpoint evictAll (deadClients : list positive) (h : Hub) : outcome Hub :=
  match deadClients with
  | [] => Done h
  | client :: rest =>
      match evict client h with
      | Panic => Panic
      | Done h' => evictAll rest h'
      end
  end.

(** [Run], case [client := <-h.register]. *)
Definition Run_register (client : positive) (h : Hub) : Hub :=
  mkHub (clients h ∪ {[client]}) (poolClients h) (opportunityClients h) (mem h).

(** [Run], case [client := <-h.unregister]. *)
Definition Run_unregister (client : positive) (h : Hub) : outcome Hub :=
  evict client h.

(** [Run], case [message := <-h.broadcast]. *)
Definition Run_broadcast (message : string) (h : Hub) : outcome Hub :=
  match sendAll message (elements (clients h)) (mem h) [] with
  | Panic => Panic
  | Done (mem', deadClients) =>
      let h := mkHub (clients h) (poolClients h) (opportunityClients h) mem' in
      if (0 <? List.length deadClients)%nat then evictAll deadClients h else Done h
  end.

Definition SubscribeToPool (client : positive) (h : Hub) : Hub :=
  mkHub (clients h) (poolClients h ∪ {[client]}) (opportunityClients h) (mem h).

Definition SubscribeToOpportunities (client : positive) (h : Hub) : Hub :=
  mkHub (clients h) (poolClients h) (opportunityClients h ∪ {[client]}) (mem h).

Definition UnsubscribeFromPool (client : positive) (h : Hub) : Hub :=
  mkHub (clients h) (poolClients h ∖ {[client]}) (opportunityClients h) (mem h).

Definition UnsubscribeFromOpportunities (client : positive) (h : Hub) : Hub :=
  mkHub (clients h) (poolClients h) (opportunityClients h ∖ {[client]}) (mem h).

(** [for _, client := range deadClients { delete(set, client) }]. *)
Definition deleteAll (deadClients : list positive) (set : gset positive) : gset positive :=
  foldl (fun set client => set ∖ {[client]}) set deadClients.

Section Broadcast.

(** [json.Marshal] of a pool, of an opportunity and of the envelope; [None]
    is a marshalling error. *)
Variable marshalPool : Pool -> option string.
Variable marshalOpportunity : Opportunity.t -> option string.
Variable marshalMessage : Message -> option string.

(** [func (h *Hub) BroadcastPoolUpdate(pool *models.Pool)]. *)
Definition BroadcastPoolUpdate (now : Time) (pool : Pool) (h : Hub) : outcome Hub :=
  match marshalPool pool with
  | None => Done h
  | Some data =>
      let msg := mkMessage MessageTypePoolUpdate now data in
      match marshalMessage msg with
      | None => Done h
      | Some msgBytes =>
          match sendAll msgBytes (elements (poolClients h)) (mem h) [] with
          | Panic => Panic
          | Done (mem', deadClients) =>
              if (0 <? List.length deadClients)%nat
              then Done (mkHub (clients h) (deleteAll deadClients (poolClients h))
                               (opportunityClients h) mem')
              else Done (mkHub (clients h) (poolClients h) (opportunityClients h) mem')
          end
      end
  end.

(** [func (h *Hub) BroadcastOpportunityAlert(opp *models.Opportunity)]. *)
Definition BroadcastOpportunityAlert (now : Time) (opp : Opportunity.t) (h : Hub)
    : outcome Hub :=
  match marshalOpportunity opp with
  | None => Done h
  | Some data =>
      let msg := mkMessage MessageTypeOpportunityAlert now data in
      match marshalMessage msg with
      | None => Done h
      | Some msgBytes =>
          match sendAll msgBytes (elements (opportunityClients h)) (mem h) [] with
          | Panic => Panic
          | Done (mem', deadClients) =>
              if (0 <? List.length deadClients)%nat
              then Done (mkHub (clients h) (poolClients h)
                               (deleteAll deadClients (opportunityClients h)) mem')
              else Done (mkHub (clients h) (poolClients h) (opportunityClients h) mem')
          end
      end
  end.

End Broadcast.

(** What one non-blocking send does to a client, and whether it finds the
    queue full. *)
Definition deliver (m : string) (c : Client) : Client :=
  match trySend (Send c) m with
  | Sent ch => mkClient (ID c) ch
  | Full | SendOnClosed => c
  end.

Definition isFull (m : string) (mem : gmap positive Client) (client : positive) : bool :=
  match mem !! client with
  | Some c => match trySend (Send c) m with Full => true | _ => false end
  | None => false
  end.

(** Every subscriber of a topic set is a live client with an open queue. *)
Definition subscribersOpen (set : gset positive) (mem : gmap positive Client) : Prop :=
  forall client, client ∈ set ->
    exists c, mem !! client = Some c /\ closed (Send c) = false.

(** The queue, and the closed flag, of the client at an address. *)
Definition queueOf (h : Hub) (client : positive) : option (list string) :=
  (fun c => queue (Send c)) <$> mem h !! client.

Definition closedOf (h : Hub) (client : positive) : option bool :=
  (fun c => closed (Send c)) <$> mem h !! client.

(** [NewHub]: no client, no subscriber. *)
Definition NewHub : Hub := mkHub ∅ ∅ ∅ ∅.

(** [NewClient] puts the new client object at an address. *)
Definition allocClient (client : positive) (id : string) (h : Hub) : Hub :=
  mkHub (clients h) (poolClients h) (opportunityClients h)
        (<[client := NewClient id]> (mem h)).

(** The start of [HandlePoolUpdates] and of [HandleOpportunityAlerts]:
    [client := NewClient(...)], [h.hub.register <- client] (served by [Run]),
    then the subscription to the topic. *)
Definition HandlePoolUpdates_connect (client : positive) (id : string) (h : Hub) : Hub :=
  SubscribeToPool client (Run_register client (allocClient client id h)).

Definition HandleOpportunityAlerts_connect (client : positive) (id : string) (h : Hub)
    : Hub :=
  SubscribeToOpportunities client (Run_register client (allocClient client id h)).

(** One receive [message, ok := <-c.Send] of [WritePump] that finds a message:
    the oldest message leaves the queue.  On an empty queue nothing changes. *)
Definition WritePump_recv (client : positive) (h : Hub) : Hub :=
  match mem h !! client with
  | Some c =>
      mkHub (clients h) (poolClients h) (opportunityClients h)
            (<[client := mkClient (ID c)
                           (mkChan (tl (queue (Send c))) (capacity (Send c))
                                   (closed (Send c)))]> (mem h))
  | None => h
  end.

(** [GetStats]: the sizes of the three sets. *)
Definition GetStats (h : Hub) : nat * nat * nat :=
  (size (clients h), size (poolClients h), size (opportunityClients h)).

(** A client after [close(client.Send)]. *)
Definition closeClient (c : Client) : Client :=
  mkClient (ID c) (mkChan (queue (Send c)) (capacity (Send c)) true).

(** Two invariants of the hub: every member of one of the three sets is a
    client whose queue is open; no queue holds more than its capacity. *)
Definition membersOpen (h : Hub) : Prop :=
  forall client,
    client ∈ clients h ∪ poolClients h ∪ opportunityClients h ->
    exists c, mem h !! client = Some c /\ closed (Send c) = false.

Definition queuesBounded (h : Hub) : Prop :=
  forall client c,
    mem h !! client = Some c ->
    (List.length (queue (Send c)) <= capacity (Send c))%nat.

Section Steps.

Variable marshalPool : Pool -> option string.
Variable marshalOpportunity : Opportunity.t -> option string.
Variable marshalMessage : Message -> option string.

(** One operation on the hub that returns: a connection on either endpoint
    (the new client object is at an unused address), a case of [Run], a topic
    broadcast, an unsubscription, or a receive of a client's [WritePump]. *)
Inductive step : Hub -> Hub -> Prop :=
| step_connect_pool (client : positive) (id : string) (h : Hub) :
    mem h !! client = None ->
    step h (HandlePoolUpdates_connect client id h)
| step_connect_opportunities (client : positive) (id : string) (h : Hub) :
    mem h !! client = None ->
    step h (HandleOpportunityAlerts_connect client id h)
| step_unregister (client : positive) (h h' : Hub) :
    Run_unregister client h = Done h' ->
    step h h'
| step_broadcast (message : string) (h h' : Hub) :
    Run_broadcast message h = Done h' ->
    step h h'
| step_pool_update (now : Time) (pool : Pool) (h h' : Hub) :
    BroadcastPoolUpdate marshalPool marshalMessage now pool h = Done h' ->
    step h h'
| step_opportunity_alert (now : Time) (opp : Opportunity.t) (h h' : Hub) :
    BroadcastOpportunityAlert marshalOpportunity marshalMessage now opp h = Done h' ->
    step h h'
| step_unsubscribe_pool (client : positive) (h : Hub) :
    step h (UnsubscribeFromPool client h)
| step_unsubscribe_opportunities (client : positive) (h : Hub) :
    step h (UnsubscribeFromOpportunities client h)
| step_recv (client : positive) (h : Hub) :
    step h (WritePump_recv client h).

(** The hubs reachable from [NewHub]. *)
Definition reachable (h : Hub) : Prop := rtc step NewHub h.

End Steps.

End websocket.

(** ** Package [defillama]: the feed *)

Module defillama.

(** [type Pool struct], a record of the DeFiLlama response; the field [Pool]
    (the pool id) is [Pool_] here. *)
Record Pool : Type := mkPool {
  Chain : string;
  Project : string;
  Symbol : string;
  TVLUsd : R;
  APYBase : R;
  APYReward : R;
  APY : R;
  RewardTokens : list string;
  Pool_ : string;
  APYPct1D : R;
  APYPct7D : R;
  APYPct30D : R;
  Stablecoin : bool;
  ILRisk : string;
  Exposure : string;
  PredictedClass : string;
  APYBase7D : R;
  APYMean30D : R;
  VolumeUSD1D : R;
  VolumeUSD7D : R;
  IL7D : R;
  UnderlyingTokens : list string;
  PoolMeta : string
}.


(** What [c.httpClient.Do(req)] gives on one attempt: a transport error, or
    a response with its status code and what decoding its body gives. *)
Inductive doResult : Type :=
| DoError
| DoResponse (statusCode : nat) (decoded : option (list Pool)).

(** The results of [FetchPools]: the pools, or one of its errors.
    [FetchNoResponse] is the loop left with [resp] still nil. *)
Inductive fetchResult : Type :=
| FetchOk (pools : list Pool)
| FetchFailedAfterRetries
| FetchCancelled
| FetchBadStatus (statusCode : nat)
| FetchDecodeError
| FetchNoResponse.

Definition maxRetries : nat := 3.

(** The code after the loop: the status check and the decoding. *)
Definition readResponse (statusCode : nat) (decoded : option (list Pool)) : fetchResult :=
  if negb (statusCode =? 200)%nat then FetchBadStatus statusCode
  else match decoded with
       | None => FetchDecodeError
       | Some pools => FetchOk pools
       end.

(** The loop [for attempt := 1; attempt <= maxRetries; attempt++] of
    [FetchPools].  [do n] is the outcome of the request of attempt [n] and
    [ctxDone n] says whether the context is cancelled during the back-off
    that follows it.  The result comes with the number of requests made and
    the seconds slept in [time.After(backoff)]. *)
Fixpoint retryLoop (do : nat -> doResult) (ctxDone : nat -> bool)
    (fuel attempt calls slept : nat) : fetchResult * nat * nat :=
  match fuel with
  | O => (FetchNoResponse, calls, slept)
  | S fuel' =>
      if (attempt <=? maxRetries)%nat then
        match do attempt with
        | DoError =>
            if (attempt =? maxRetries)%nat
            then (FetchFailedAfterRetries, S calls, slept)
            else
              let backoff := (attempt * attempt)%nat in
              if ctxDone attempt then (FetchCancelled, S calls, slept)
              else retryLoop do ctxDone fuel' (S attempt) (S calls) (slept + backoff)%nat
        | DoResponse statusCode decoded =>
            (readResponse statusCode decoded, S calls, slept)
        end
      else (FetchNoResponse, calls, slept)
  end.

(** [func (c *Client) FetchPools(ctx)] once the rate limiter has let the call
    through and the request has been built. *)
Definition FetchPools (do : nat -> doResult) (ctxDone : nat -> bool)
    : fetchResult * nat * nat :=
  retryLoop do ctxDone (S maxRetries) 1 0 0.

End defillama.

(** ** The worker: [runDeFiLlamaJob] *)

Module worker.





End worker.

(** ** The scoring formulas as the specification words them

    These two definitions follow the prose of the specification, not the Go
    code; they are what [CalculateScore] and [CalculateYieldGapProfit] are
    compared with. *)

Module spec.

Import models config.
Local Open Scope R_scope.

Definition clamp (x lo hi : R) : R := Rmax lo (Rmin hi x).
Definition clamp01 (x : R) : R := clamp x 0 1.

(** "score = clamp01(sum of weight_i * normalized_i) * chainMultiplier * 100,
    clamped to [0,100]". *)
Definition Score (weights : ScoringConfig) (pool : Pool) : R :=
  let apy := APY pool in
  let sum :=
    APYWeight weights * analytics.normalizeAPY apy
    + TVLWeight weights * analytics.normalizeTVL (TVL pool)
    + StabilityWeight weights * analytics.calculateStability apy (APYMean30D pool)
    + TrendWeight weights * analytics.normalizeTrend (APYChange24H pool) in
  clamp (clamp01 sum * analytics.getChainSecurityMultiplier (Chain pool) * 100) 0 100.


(** "exact match against a known single-asset list, else the first token
    split on -, / or _": whether a separator byte occurs in a symbol, and
    the token in front of its first occurrence. *)
Fixpoint occurs (sep : ascii) (s : string) : bool :=
  match s with
  | EmptyString => false
  | String c s' => Ascii.eqb sep c || occurs sep s'
  end.

Fixpoint firstToken (sep : ascii) (s : string) : string :=
  match s with
  | EmptyString => EmptyString
  | String c s' => if Ascii.eqb sep c then EmptyString else String c (firstToken sep s')
  end.



End spec.

(** ** Sample inputs used by the examples below *)

Module samples.

Import models config.
Local Open Scope R_scope.

(** A pool record with the given chain and metrics; the remaining fields are
    fixed. *)
Definition pool (chain : string) (tvl apy apyMean30d score apyChange24h : R) : Pool :=
  mkPool "pool-1" chain "aave-v3" "USDC" tvl apy 0 0 [] [] EmptyString 0
    apyMean30d 0 0 score 0 apyChange24h 0 false "single" 0%Z 0%Z.

(** Weights that do not add up to one: [SCORE_WEIGHT_TREND=2], the others 0. *)
Definition heavyTrend : ScoringConfig := mkScoringConfig 0 0 0 2.

(** An Ethereum pool with no yield yet whose APY change is +100. *)
Definition surging : Pool := pool "ethereum" 0 0 0 0 100.

(** The "low risk - stable pool" of [TestCalculateRiskLevel]. *)
Definition stable : Pool := pool "ethereum" 100000000 5 0 80 0.

(** The same metrics on a chain without a security rating. *)
Definition unrated : Pool := pool "zksync" 100000000 5 0 80 0.

(** Encoders standing for [json.Marshal]: they never fail. *)
Definition marshalPool (p : Pool) : option string := Some (ID p).
Definition marshalOpportunity (o : Opportunity.t) : option string :=
  Some (Opportunity.ID o).
Definition marshalMessage (m : websocket.Message) : option string :=
  Some ("update:" +:+ websocket.Data m).

(** The bytes broadcast for the pool [stable] under these encoders. *)
Definition update : string := "update:pool-1".

(** Three connections at the addresses 1, 2 and 3, all registered and
    subscribed to pool updates; connection 3 is also subscribed to
    opportunity alerts, and its queue already holds 256 messages, which is
    the capacity [NewClient] gives it. *)
Definition saturated : websocket.Client :=
  websocket.mkClient "c3" (websocket.mkChan (replicate 256 "earlier") 256 false).

Definition hub : websocket.Hub :=
  websocket.mkHub {[1; 2; 3]}%positive {[1; 2; 3]}%positive {[3]}%positive
    (<[1 := websocket.NewClient "c1"]>
       (<[2 := websocket.NewClient "c2"]> (<[3 := saturated]> ∅)))%positive.

(** Two rows of the table [opportunities]: [lapsed] was deactivated by an
    earlier sweep, [revived] carries the same identifier and is active. *)
Definition opp (id : string) (isActive : bool) (expiresAt : Time) : Opportunity.t :=
  Opportunity.mk id OpportunityTypeHighScore "High Score" EmptyString
    EmptyString EmptyString "pool-1" "USDC" "ethereum" 0 0 0 0 0
    RiskLevelLow 0 isActive 0%Z 0%Z expiresAt 0%Z 0%Z.

Definition lapsed : Opportunity.t := opp "opp-1" false 100%Z.
Definition revived : Opportunity.t := opp "opp-1" true 100%Z.
Definition current : Opportunity.t := opp "opp-2" true 900%Z.
Definition overdue : Opportunity.t := opp "opp-3" true 100%Z.



End samples.

(* ===================================================================== *)
(** * Properties *)
(* ===================================================================== *)

(** ** Scoring engine *)

Section AnalyticsFacts.

Import models config analytics.
Local Open Scope R_scope.

Lemma ln_10_pos : 0 < ln 10.
Proof. rewrite <- ln_1. apply ln_increasing; lra. Qed.

Lemma Log10_10001_pos : 0 < math.Log10 10001.
Proof.
  unfold math.Log10. apply Rdiv_lt_0_compat; [| apply ln_10_pos].
  rewrite <- ln_1. apply ln_increasing; lra.
Qed.

Lemma Log10_increasing (x y : R) : 0 < x -> x < y -> math.Log10 x < math.Log10 y.
Proof.
  intros Hx Hxy. unfold math.Log10.
  apply Rmult_lt_compat_r; [apply Rinv_0_lt_compat, ln_10_pos |].
  now apply ln_increasing.
Qed.

Lemma Log10_1 : math.Log10 1 = 0.
Proof. unfold math.Log10. rewrite ln_1. lra. Qed.

(** The logarithmic branch of [normalizeAPY], before the cap at 1. *)
Lemma logRatio_increasing (x y : R) :
  0 < x -> x < y ->
  math.Log10 (x + 1) / math.Log10 10001 < math.Log10 (y + 1) / math.Log10 10001.
Proof.
  intros Hx Hxy.
  apply Rmult_lt_compat_r; [apply Rinv_0_lt_compat, Log10_10001_pos |].
  apply Log10_increasing; lra.
Qed.

Lemma logRatio_pos (x : R) : 0 < x -> 0 < math.Log10 (x + 1) / math.Log10 10001.
Proof.
  intros Hx. apply Rdiv_lt_0_compat; [| apply Log10_10001_pos].
  rewrite <- Log10_1. apply Log10_increasing; lra.
Qed.

Lemma logRatio_le_1 (x : R) :
  0 < x -> x <= 10000 -> math.Log10 (x + 1) / math.Log10 10001 <= 1.
Proof.
  intros Hx Hle. pose proof Log10_10001_pos as HL.
  apply (Rmult_le_reg_r (math.Log10 10001)); [exact HL |].
  unfold Rdiv. rewrite Rmult_assoc, Rinv_l by lra. rewrite Rmult_1_r, Rmult_1_l.
  destruct (Req_dec x 10000) as [-> | Hne].
  - replace (10000 + 1) with 10001 by lra. lra.
  - left. apply Log10_increasing; lra.
Qed.

Lemma normalizeAPY_nonpos (apy : R) : apy <= 0 -> normalizeAPY apy = 0.
Proof. intros H. unfold normalizeAPY. destruct (Rle_dec apy 0); [reflexivity | contradiction]. Qed.

Lemma normalizeAPY_pos (apy : R) :
  0 < apy ->
  normalizeAPY apy = Rmin 1 (math.Log10 (apy + 1) / math.Log10 10001).
Proof. intros H. unfold normalizeAPY, math.Min. destruct (Rle_dec apy 0); [lra | reflexivity]. Qed.

Lemma normalizeAPY_range (apy : R) : 0 <= normalizeAPY apy <= 1.
Proof.
  destruct (Rle_dec apy 0) as [H | H].
  - rewrite normalizeAPY_nonpos by exact H. lra.
  - rewrite normalizeAPY_pos by lra.
    pose proof (logRatio_pos apy ltac:(lra)).
    split; [apply Rmin_glb; lra | apply Rmin_l].
Qed.

Lemma normalizeAPY_capped (apy : R) : 10000 <= apy -> normalizeAPY apy = 1.
Proof.
  intros H. rewrite normalizeAPY_pos by lra. apply Rmin_left.
  pose proof Log10_10001_pos as HL.
  apply (Rmult_le_reg_r (math.Log10 10001)); [exact HL |].
  unfold Rdiv. rewrite Rmult_assoc, Rinv_l by lra. rewrite Rmult_1_r, Rmult_1_l.
  destruct (Req_dec apy 10000) as [-> | Hne].
  - replace (10000 + 1) with 10001 by lra. lra.
  - left. apply Log10_increasing; lra.
Qed.

Lemma normalizeAPY_nondecreasing (a1 a2 : R) :
  a1 <= a2 -> normalizeAPY a1 <= normalizeAPY a2.
Proof.
  intros Hle. destruct (Rle_dec a1 0) as [H1 | H1].
  - rewrite (normalizeAPY_nonpos a1) by exact H1. apply normalizeAPY_range.
  - rewrite !normalizeAPY_pos by lra.
    destruct (Req_dec a1 a2) as [-> | Hne]; [lra |].
    apply Rle_min_compat_l. left. apply logRatio_increasing; lra.
Qed.

Lemma normalizeAPY_strict (a1 a2 : R) :
  0 <= a1 -> a1 < a2 -> a2 <= 10000 -> normalizeAPY a1 < normalizeAPY a2.
Proof.
  intros H0 Hlt Hcap.
  rewrite (normalizeAPY_pos a2) by lra.
  pose proof (logRatio_pos a2 ltac:(lra)) as Hp2.
  pose proof (logRatio_le_1 a2 ltac:(lra) Hcap) as Hc2.
  rewrite (Rmin_right 1 _ Hc2).
  destruct (Req_dec a1 0) as [-> | Hne].
  - rewrite normalizeAPY_nonpos by lra. exact Hp2.
  - rewrite (normalizeAPY_pos a1) by lra.
    pose proof (logRatio_increasing a1 a2 ltac:(lra) Hlt) as Hinc.
    rewrite Rmin_right by lra. exact Hinc.
Qed.

Lemma normalizeTVL_range (tvl : R) : 0 <= normalizeTVL tvl <= 1.
Proof.
  unfold normalizeTVL, math.Max, math.Min. destruct (Rle_dec tvl 0); [lra |].
  split; [apply Rmax_l |].
  apply Rmax_lub; [lra | apply Rmin_l].
Qed.

Lemma calculateStability_range (currentAPY meanAPY : R) :
  0 <= calculateStability currentAPY meanAPY <= 1.
Proof.
  unfold calculateStability, math.Min, math.Abs.
  destruct (Rle_dec meanAPY 0) as [H | H]; [lra |].
  assert (Hd : 0 <= Rabs (currentAPY - meanAPY) / meanAPY).
  { apply Rmult_le_pos; [apply Rabs_pos |]. left. apply Rinv_0_lt_compat. lra. }
  pose proof (Rmin_l 1 (Rabs (currentAPY - meanAPY) / meanAPY)).
  pose proof (Rmin_glb 1 (Rabs (currentAPY - meanAPY) / meanAPY) 0 ltac:(lra) Hd).
  lra.
Qed.

Lemma normalizeTrend_range (change24h : R) : 0 <= normalizeTrend change24h <= 1.
Proof.
  unfold normalizeTrend, math.Max, math.Min.
  pose proof (Rmax_l (-100) (Rmin 100 change24h)).
  assert (Rmax (-100) (Rmin 100 change24h) <= 100).
  { apply Rmax_lub; [lra | apply Rmin_l]. }
  lra.
Qed.

(** Every rating of the table lies between 50 and 95. *)
Lemma chainSecurityRatings_bounds (chain : string) (rating : R) :
  chainSecurityRatings !! chain = Some rating -> 50 <= rating <= 95.
Proof.
  intros H. unfold chainSecurityRatings in H.
  apply elem_of_list_to_map_2 in H.
  repeat (apply elem_of_cons in H as [H | H]; [inversion H; subst; lra |]).
  inversion H.
Qed.

Lemma getChainSecurityMultiplier_range (chain : string) :
  0.75 <= getChainSecurityMultiplier chain <= 0.975.
Proof.
  unfold getChainSecurityMultiplier.
  destruct (chainSecurityRatings !! chain) as [rating |] eqn:E; [| lra].
  apply chainSecurityRatings_bounds in E. lra.
Qed.

(** For non-negative weights the weighted sum is at most the sum of the
    weights, and non-negative. *)
Lemma weightedSum_bounds (weights : ScoringConfig) (pool : Pool) :
  0 <= APYWeight weights -> 0 <= TVLWeight weights ->
  0 <= StabilityWeight weights -> 0 <= TrendWeight weights ->
  0 <= weightedSum weights pool
    <= APYWeight weights + TVLWeight weights
       + StabilityWeight weights + TrendWeight weights.
Proof.
  intros Ha Ht Hs Hr. unfold weightedSum, Float64.
  pose proof (normalizeAPY_range (APY pool)).
  pose proof (normalizeTVL_range (TVL pool)).
  pose proof (calculateStability_range (APY pool) (APYMean30D pool)).
  pose proof (normalizeTrend_range (APYChange24H pool)).
  nra.
Qed.


Lemma clamp_id (x lo hi : R) : lo <= x <= hi -> spec.clamp x lo hi = x.
Proof.
  intros [H1 H2]. unfold spec.clamp.
  rewrite (Rmin_right hi x H2). now apply Rmax_right.
Qed.

Lemma clamp_below (x lo hi : R) : lo <= hi -> x <= lo -> spec.clamp x lo hi = lo.
Proof.
  intros H1 H2. unfold spec.clamp.
  rewrite (Rmin_right hi x) by lra. now apply Rmax_left.
Qed.

Lemma clamp_above (x lo hi : R) : lo <= hi -> hi <= x -> spec.clamp x lo hi = hi.
Proof.
  intros H1 H2. unfold spec.clamp.
  rewrite (Rmin_left hi x) by lra. now apply Rmax_right.
Qed.

(** What the code computes: one clamp, applied last. *)
Lemma CalculateScore_unfold (weights : ScoringConfig) (pool : Pool) :
  CalculateScore weights pool
  = spec.clamp (weightedSum weights pool
                * getChainSecurityMultiplier (Chain pool) * 100) 0 100.
Proof. reflexivity. Qed.

Lemma spec_Score_unfold (weights : ScoringConfig) (pool : Pool) :
  spec.Score weights pool
  = spec.clamp (spec.clamp01 (weightedSum weights pool)
                * getChainSecurityMultiplier (Chain pool) * 100) 0 100.
Proof. reflexivity. Qed.

Lemma normalizeTrend_100 : normalizeTrend 100 = 1.
Proof.
  unfold normalizeTrend, math.Max, math.Min.
  rewrite (Rmin_left 100 100) by lra. rewrite Rmax_right by lra. lra.
Qed.

Lemma normalizeTrend_0 : normalizeTrend 0 = 0.5.
Proof.
  unfold normalizeTrend, math.Max, math.Min.
  rewrite (Rmin_right 100 0) by lra. rewrite Rmax_right by lra. lra.
Qed.

Lemma normalizeTVL_nonpos (tvl : R) : tvl <= 0 -> normalizeTVL tvl = 0.
Proof. intros H. unfold normalizeTVL. destruct (Rle_dec tvl 0); [reflexivity | contradiction]. Qed.

Lemma calculateStability_unknown (currentAPY meanAPY : R) :
  meanAPY <= 0 -> calculateStability currentAPY meanAPY = 0.5.
Proof.
  intros H. unfold calculateStability.
  destruct (Rle_dec meanAPY 0); [reflexivity | contradiction].
Qed.

Lemma multiplier_ethereum : getChainSecurityMultiplier "ethereum" = 0.975.
Proof.
  unfold getChainSecurityMultiplier.
  replace (chainSecurityRatings !! "ethereum") with (Some 95) by reflexivity.
  lra.
Qed.

Lemma weightedSum_surging : weightedSum samples.heavyTrend samples.surging = 2.
Proof.
  unfold weightedSum, Float64. cbn [samples.heavyTrend samples.surging samples.pool
    APY TVL APYMean30D APYChange24H APYWeight TVLWeight StabilityWeight TrendWeight].
  rewrite normalizeTrend_100. lra.
Qed.

(** *** C3: the score formula *)

(** C3, counterexample.  With the weights [heavyTrend] the weighted sum of the
    pool [surging] is 2: the code multiplies it by 0.975 and by 100 and clamps
    195 to 100, whereas the claimed formula clamps the sum to 1 first and
    yields 97.5. *)
Lemma CalculateScore_differs_from_claimed_formula :
  CalculateScore samples.heavyTrend samples.surging = 100
  /\ spec.Score samples.heavyTrend samples.surging = 97.5
  /\ CalculateScore samples.heavyTrend samples.surging
     <> spec.Score samples.heavyTrend samples.surging.
Proof.
  assert (H1 : CalculateScore samples.heavyTrend samples.surging = 100).
  { rewrite CalculateScore_unfold, weightedSum_surging.
    change (Chain samples.surging) with "ethereum". rewrite multiplier_ethereum.
    apply clamp_above; lra. }
  assert (H2 : spec.Score samples.heavyTrend samples.surging = 97.5).
  { rewrite spec_Score_unfold, weightedSum_surging.
    change (Chain samples.surging) with "ethereum". rewrite multiplier_ethereum.
    unfold spec.clamp01. rewrite (clamp_above 2 0 1) by lra.
    rewrite clamp_id; lra. }
  repeat split; [exact H1 | exact H2 |]. rewrite H1, H2. lra.
Qed.

(** C3, as amended.  [CalculateScore] clamps once, after the chain multiplier
    and the factor 100 have been applied: it is the weighted sum times the
    multiplier times 100, clamped to [0,100].  It equals the claimed formula,
    which also clamps the weighted sum to [0,1] first, exactly when the
    weighted sum is at most 1. *)
Theorem CalculateScore_eq_claimed_formula_iff (weights : ScoringConfig) (pool : Pool) :
  CalculateScore weights pool
  = spec.clamp (weightedSum weights pool
                * getChainSecurityMultiplier (Chain pool) * 100) 0 100
  /\ (CalculateScore weights pool = spec.Score weights pool
      <-> weightedSum weights pool <= 1).
Proof.
  split; [reflexivity |].
  rewrite CalculateScore_unfold, spec_Score_unfold.
  pose proof (getChainSecurityMultiplier_range (Chain pool)) as Hm.
  set (m := getChainSecurityMultiplier (Chain pool)) in *.
  set (x := weightedSum weights pool).
  split.
  - intros Heq. destruct (Rle_dec x 1) as [Hle | Hgt]; [exact Hle | exfalso].
    unfold spec.clamp01 in Heq. rewrite (clamp_above x 0 1) in Heq by lra.
    rewrite (clamp_id (1 * m * 100)) in Heq by lra.
    destruct (Rle_dec (x * m * 100) 100) as [Hs | Hs].
    + rewrite clamp_id in Heq by nra. nra.
    + rewrite clamp_above in Heq by lra. lra.
  - intros Hle. unfold spec.clamp01.
    destruct (Rle_dec 0 x) as [Hpos | Hneg].
    + rewrite (clamp_id x 0 1) by lra. reflexivity.
    + rewrite (clamp_below x 0 1) by lra.
      rewrite (clamp_below (x * m * 100)) by nra.
      rewrite clamp_id; lra.
Qed.

(** C3, witness: the default weights add up to 1, so the weighted sum of the
    pool [stable] is at most 1 and both formulas agree on it. *)
Lemma CalculateScore_eq_claimed_formula_default :
  CalculateScore defaultScoring samples.stable
  = spec.Score defaultScoring samples.stable.
Proof.
  apply (proj2 (proj2 (CalculateScore_eq_claimed_formula_iff defaultScoring
                         samples.stable))).
  pose proof (weightedSum_bounds defaultScoring samples.stable) as H.
  cbn [defaultScoring APYWeight TVLWeight StabilityWeight TrendWeight] in H.
  specialize (H ltac:(lra) ltac:(lra) ltac:(lra) ltac:(lra)). lra.
Defined.

(** *** C9: determinism and range of the score *)



(** *** C6: monotonicity of [normalizeAPY] *)

(** C6, counterexample: -1 < 0 but both are mapped to 0 by the guard
    [apy <= 0]. *)
Lemma normalizeAPY_not_strictly_increasing :
  -1 < 0 /\ ~ (normalizeAPY (-1) < normalizeAPY 0).
Proof.
  split; [lra |].
  rewrite !normalizeAPY_nonpos by lra. lra.
Qed.

(** C6, as amended.  [normalizeAPY] is non-decreasing everywhere.  It is
    constant (0) on apy <= 0, where the guard returns, and constant (1) from
    10000 on, where the cap at 1 applies; in between, in exact arithmetic, it
    is strictly increasing.  And [normalizeAPY 0 = 0]. *)
Theorem normalizeAPY_monotone (apy1 apy2 : R) :
  apy1 < apy2 ->
  normalizeAPY apy1 <= normalizeAPY apy2
  /\ (0 <= apy1 -> apy2 <= 10000 -> normalizeAPY apy1 < normalizeAPY apy2)
  /\ (apy2 <= 0 -> normalizeAPY apy1 = normalizeAPY apy2)
  /\ (10000 <= apy1 -> normalizeAPY apy1 = normalizeAPY apy2)
  /\ normalizeAPY 0 = 0.
Proof.
  intros Hlt. repeat split.
  - apply normalizeAPY_nondecreasing. lra.
  - intros H0 Hcap. now apply normalizeAPY_strict.
  - intros Hneg. rewrite !normalizeAPY_nonpos by lra. reflexivity.
  - intros Hbig. rewrite !normalizeAPY_capped by lra. reflexivity.
  - apply normalizeAPY_nonpos. lra.
Qed.

(** C6, witness, at the inputs 0 and 1. *)
Lemma normalizeAPY_monotone_0_1 :
  normalizeAPY 0 <= normalizeAPY 1
  /\ normalizeAPY 0 < normalizeAPY 1
  /\ normalizeAPY 0 = 0.
Proof.
  destruct (normalizeAPY_monotone 0 1 ltac:(lra)) as (H1 & H2 & _ & _ & H3).
  repeat split; [exact H1 | apply H2; lra | exact H3].
Defined.

(** *** C4: profit of a yield gap *)

(** [math.Ceil] is the ceiling: the least integer not below its argument. *)
Lemma Ceil_spec (x : R) : IZR (math.Ceil x) - 1 < x <= IZR (math.Ceil x).
Proof.
  unfold math.Ceil. rewrite minus_IZR.
  destruct (archimed (- x)) as [H1 H2]. lra.
Qed.

Lemma Ceil_unique (x : R) (n : Z) : IZR n - 1 < x <= IZR n -> math.Ceil x = n.
Proof.
  intros [H1 H2]. destruct (Ceil_spec x) as [H3 H4].
  assert (Hlo : (math.Ceil x - 1 < n)%Z).
  { apply lt_IZR. rewrite minus_IZR. lra. }
  assert (Hhi : (n - 1 < math.Ceil x)%Z).
  { apply lt_IZR. rewrite minus_IZR. lra. }
  lia.
Qed.

Lemma estimateGasCost_arbitrum : estimateGasCost "arbitrum" = 1.
Proof. reflexivity. Qed.

Lemma estimateGasCost_polygon : estimateGasCost "polygon" = 0.1.
Proof. reflexivity. Qed.

Lemma estimateGasCost_ethereum : estimateGasCost "ethereum" = 50.
Proof. reflexivity. Qed.

Lemma estimateGasCost_unknown : estimateGasCost "zksync" = 10.
Proof. reflexivity. Qed.

(** Moving from 3.5% on Arbitrum to 4.2% on Polygon: gas is $1.10, the
    30-day profit on $10,000 is 21000/3650 - 1.1 and one day amortizes it. *)
Example CalculateYieldGapProfit_arbitrum_polygon :
  CalculateYieldGapProfit 3.5 4.2 500000000 "arbitrum" "polygon"
  = (21000 / 3650 - 1.1, 1%Z).
Proof.
  unfold CalculateYieldGapProfit.
  rewrite estimateGasCost_arbitrum, estimateGasCost_polygon.
  destruct (Rle_dec (4.2 - 3.5) 0) as [H | _]; [lra |].
  destruct (Rgt_dec (4.2 - 3.5) 0) as [_ | H]; [| lra].
  cbv zeta.
  destruct (Rlt_dec _ 0) as [H | _]; [lra |].
  destruct (Rgt_dec _ 100000) as [H | _]; [lra |].
  f_equal; [lra |]. apply Ceil_unique. simpl. lra.
Qed.

(** The same gap between two Ethereum pools is rejected: $100 of gas exceeds
    the 30-day profit. *)
Example CalculateYieldGapProfit_ethereum :
  CalculateYieldGapProfit 3.5 4.2 500000000 "ethereum" "ethereum" = (0, 0%Z).
Proof.
  unfold CalculateYieldGapProfit. rewrite estimateGasCost_ethereum.
  destruct (Rle_dec (4.2 - 3.5) 0) as [H | _]; [lra |].
  destruct (Rgt_dec (4.2 - 3.5) 0) as [_ | H]; [| lra].
  cbv zeta.
  destruct (Rlt_dec _ 0) as [_ | H]; [reflexivity | lra].
Qed.


(** The per-chain gas estimate defaults to $10 off the table. *)
Lemma estimateGasCost_default (chain : string) :
  gasCosts !! chain = None -> estimateGasCost chain = 10.
Proof. intros H. unfold estimateGasCost. now rewrite H. Qed.

(** *** C7 and C10: the risk tier *)

Lemma riskFactors_mono_apy (p : Pool) (apy' : R) :
  APY p <= apy' -> (riskFactors p <= riskFactors (set_APY apy' p))%nat.
Proof.
  intros Hle. unfold riskFactors, Float64. cbn [set_APY APY TVL Score Chain].
  repeat match goal with
         | |- context [Rgt_dec ?a ?b] => destruct (Rgt_dec a b)
         | |- context [Rlt_dec ?a ?b] => destruct (Rlt_dec a b)
         end; solve [lia | lra].
Qed.

Lemma riskFactors_mono_tvl (p : Pool) (tvl' : R) :
  tvl' <= TVL p -> (riskFactors p <= riskFactors (set_TVL tvl' p))%nat.
Proof.
  intros Hle. unfold riskFactors, Float64. cbn [set_TVL APY TVL Score Chain].
  repeat match goal with
         | |- context [Rgt_dec ?a ?b] => destruct (Rgt_dec a b)
         | |- context [Rlt_dec ?a ?b] => destruct (Rlt_dec a b)
         end; solve [lia | lra].
Qed.

(** The final [switch] is monotone in the counter. *)
Lemma CalculateRiskLevel_mono (p q : Pool) :
  (riskFactors p <= riskFactors q)%nat ->
  (risk_rank (CalculateRiskLevel p) <= risk_rank (CalculateRiskLevel q))%nat.
Proof.
  intros H. unfold CalculateRiskLevel. cbv zeta.
  destruct (Nat.leb_spec 3 (riskFactors p)); destruct (Nat.leb_spec 3 (riskFactors q));
    destruct (Nat.leb_spec 1 (riskFactors p)); destruct (Nat.leb_spec 1 (riskFactors q));
    simpl; lia.
Qed.

(** C7.  Raising a pool's apy from at most 500 to above 500, or lowering its
    tvl to a value below 10,000, all other fields fixed, never yields a lower
    tier in the order low < medium < high. *)
Theorem CalculateRiskLevel_monotone (p : Pool) :
  (forall apy' : R, APY p <= 500 -> 500 < apy' ->
     (risk_rank (CalculateRiskLevel p)
      <= risk_rank (CalculateRiskLevel (set_APY apy' p)))%nat)
  /\ (forall tvl' : R, tvl' < TVL p -> tvl' < 10000 ->
     (risk_rank (CalculateRiskLevel p)
      <= risk_rank (CalculateRiskLevel (set_TVL tvl' p)))%nat).
Proof.
  split.
  - intros apy' H1 H2. apply CalculateRiskLevel_mono, riskFactors_mono_apy. lra.
  - intros tvl' H1 H2. apply CalculateRiskLevel_mono, riskFactors_mono_tvl. lra.
Qed.

(** C7, witness: the pool [stable] (apy 5, tvl 10^8) with its apy raised to
    600, and with its tvl lowered to 5000. *)
Lemma CalculateRiskLevel_monotone_stable :
  (risk_rank (CalculateRiskLevel samples.stable)
   <= risk_rank (CalculateRiskLevel (set_APY 600 samples.stable)))%nat
  /\ (risk_rank (CalculateRiskLevel samples.stable)
      <= risk_rank (CalculateRiskLevel (set_TVL 5000 samples.stable)))%nat.
Proof.
  destruct (CalculateRiskLevel_monotone samples.stable) as [Ha Ht].
  split.
  - apply (Ha 600); cbn; lra.
  - apply (Ht 5000); cbn; lra.
Defined.

(** C10.  A pool on a chain that is not a key of [chainSecurityRatings] is
    never in the low tier: the missing rating reads as 0, which is below 60
    and counts as one risk factor. *)
Theorem CalculateRiskLevel_unrated_chain (p : Pool) :
  chainSecurityRatings !! Chain p = None ->
  (1 <= riskFactors p)%nat /\ CalculateRiskLevel p <> RiskLevelLow.
Proof.
  intros Hnone.
  assert (H1 : (1 <= riskFactors p)%nat).
  { unfold riskFactors. rewrite Hnone. cbn [default]. cbv zeta.
    destruct (Rlt_dec 0 60) as [_ | Hn]; [| lra].
    repeat match goal with
           | |- context [Rgt_dec ?a ?b] => destruct (Rgt_dec a b)
           | |- context [Rlt_dec ?a ?b] => destruct (Rlt_dec a b)
           end; lia. }
  split; [exact H1 |].
  unfold CalculateRiskLevel. cbv zeta.
  destruct (Nat.leb_spec 3 (riskFactors p)); [discriminate |].
  destruct (Nat.leb_spec 1 (riskFactors p)); [discriminate | lia].
Qed.

(** C10, witness: the pool [unrated] has a chain without a rating ("zksync") and
    otherwise the metrics of the low-risk pool [stable]. *)
Lemma CalculateRiskLevel_unrated_zksync :
  (1 <= riskFactors samples.unrated)%nat
  /\ CalculateRiskLevel samples.unrated <> RiskLevelLow.
Proof.
  apply (CalculateRiskLevel_unrated_chain samples.unrated). reflexivity.
Defined.

(** The two cases of [TestCalculateRiskLevel]. *)
Example CalculateRiskLevel_stable : CalculateRiskLevel samples.stable = RiskLevelLow.
Proof.
  unfold CalculateRiskLevel, riskFactors, Float64.
  cbn [samples.stable samples.pool APY TVL Score Chain].
  replace (chainSecurityRatings !! "ethereum") with (Some 95) by reflexivity.
  change (default 0 (Some 95)) with 95.
  repeat match goal with
         | |- context [Rgt_dec ?a ?b] => destruct (Rgt_dec a b); [lra |]
         | |- context [Rlt_dec ?a ?b] => destruct (Rlt_dec a b); [lra |]
         end.
  reflexivity.
Qed.

End AnalyticsFacts.

(** ** Opportunity table: expiry sweep and upsert *)

Section PostgresFacts.

Import models postgres.
Import Opportunity.

Implicit Types (tbl : gmap string Opportunity.t) (row opp : Opportunity.t).
Implicit Types (now : Time) (id : string).

Lemma setInactive_inactive now row : IsActive (setInactive now row) = false.
Proof. reflexivity. Qed.

Lemma expired_true now row :
  expired now row = true <-> IsActive row = true /\ (ExpiresAt row < now)%Z.
Proof. unfold expired. rewrite andb_true_iff, Z.ltb_lt. tauto. Qed.

Lemma expired_false now row :
  expired now row = false <-> IsActive row = false \/ (now <= ExpiresAt row)%Z.
Proof.
  unfold expired. rewrite andb_false_iff, Z.ltb_ge. tauto.
Qed.

Lemma sweep_lookup now tbl id :
  DeactivateExpiredOpportunities now tbl !! id
  = (fun row => if expired now row then setInactive now row else row) <$> tbl !! id.
Proof. unfold DeactivateExpiredOpportunities. apply lookup_fmap. Qed.

(** A row written by the sweep no longer matches its [WHERE] clause. *)
Lemma sweep_row_settled now row :
  expired now (if expired now row then setInactive now row else row) = false.
Proof.
  destruct (expired now row) eqn:E; [| exact E].
  unfold expired. now rewrite setInactive_inactive.
Qed.

Lemma sweep_idempotent now tbl :
  DeactivateExpiredOpportunities now (DeactivateExpiredOpportunities now tbl)
  = DeactivateExpiredOpportunities now tbl.
Proof.
  apply map_eq. intros id. rewrite !sweep_lookup.
  destruct (tbl !! id) as [row |]; [| reflexivity].
  cbn. now rewrite sweep_row_settled.
Qed.


(** *** C8: the expiry sweep *)

(** C8.  After one sweep at time [now], a row that was active with
    [expires_at < now] is inactive (its other columns, [updated_at] apart,
    are unchanged), every other row is unchanged, no row appears or
    disappears; and a second sweep at the same time changes nothing. *)
Theorem DeactivateExpiredOpportunities_sweep now tbl :
  (forall id row, tbl !! id = Some row ->
     (IsActive row = true -> (ExpiresAt row < now)%Z ->
        DeactivateExpiredOpportunities now tbl !! id = Some (setInactive now row)
        /\ IsActive (setInactive now row) = false)
     /\ (IsActive row = false \/ (now <= ExpiresAt row)%Z ->
        DeactivateExpiredOpportunities now tbl !! id = Some row))
  /\ (forall id, tbl !! id = None ->
        DeactivateExpiredOpportunities now tbl !! id = None)
  /\ DeactivateExpiredOpportunities now (DeactivateExpiredOpportunities now tbl)
     = DeactivateExpiredOpportunities now tbl.
Proof.
  split; [| split].
  - intros id row Hrow. split.
    + intros Hact Hexp. split; [| reflexivity].
      rewrite sweep_lookup, Hrow. cbn.
      now rewrite (proj2 (expired_true now row) (conj Hact Hexp)).
    + intros Hkeep. rewrite sweep_lookup, Hrow. cbn.
      now rewrite (proj2 (expired_false now row) Hkeep).
  - intros id Hnone. now rewrite sweep_lookup, Hnone.
  - apply sweep_idempotent.
Qed.

(** C8, witness: a table with the rows [overdue] (active, expired at 100) and
    [current] (active until 900), swept at time 500. *)
Lemma DeactivateExpiredOpportunities_sweep_at_500 :
  let tbl : gmap string Opportunity.t :=
    <["opp-3" := samples.overdue]> (<["opp-2" := samples.current]> ∅) in
  IsActive <$> DeactivateExpiredOpportunities 500%Z tbl !! "opp-3" = Some false
  /\ DeactivateExpiredOpportunities 500%Z tbl !! "opp-2" = Some samples.current
  /\ DeactivateExpiredOpportunities 500%Z (DeactivateExpiredOpportunities 500%Z tbl)
     = DeactivateExpiredOpportunities 500%Z tbl.
Proof.
  intros tbl.
  destruct (DeactivateExpiredOpportunities_sweep 500%Z tbl) as (Hrows & _ & Hidem).
  destruct (Hrows "opp-3" samples.overdue eq_refl) as [Hgone _].
  destruct (Hrows "opp-2" samples.current eq_refl) as [_ Hkept].
  split; [| split].
  - destruct (Hgone eq_refl eq_refl) as [-> _]. reflexivity.
  - apply Hkept. right. cbn. lia.
  - exact Hidem.
Defined.

(** *** C2: [isActive] after an upsert *)

Lemma upsert_lookup_same now opp tbl :
  UpsertOpportunity now opp tbl !! ID opp
  = Some (match tbl !! ID opp with
          | None => opp
          | Some row => onConflictUpdate now row opp
          end).
Proof.
  unfold UpsertOpportunity. destruct (tbl !! ID opp); apply lookup_insert_eq.
Qed.

Lemma upsert_lookup_other now opp tbl id :
  id <> ID opp -> UpsertOpportunity now opp tbl !! id = tbl !! id.
Proof.
  intros Hne. unfold UpsertOpportunity.
  destruct (tbl !! ID opp); now apply lookup_insert_ne.
Qed.


Lemma upsertAll_reachable (results : list (Time * Opportunity.t)) tbl :
  NoDup ((fun r => ID (snd r)) <$> results) ->
  (forall r, r ∈ results -> tbl !! ID (snd r) = None) ->
  reachable tbl (upsertAll results tbl).
Proof.
  unfold reachable, upsertAll. revert tbl.
  induction results as [| [now opp] results IH]; intros tbl Hnodup Hfresh.
  - apply rtc_refl.
  - cbn [foldl fst snd]. cbn in Hnodup. apply NoDup_cons in Hnodup as [Hnotin Hnodup].
    eapply rtc_l.
    + apply (step_upsert now opp). apply (Hfresh (now, opp)). apply list_elem_of_here.
    + apply IH; [exact Hnodup |]. intros r Hr.
      rewrite upsert_lookup_other.
      * apply Hfresh. now apply list_elem_of_further.
      * intros Heq. apply Hnotin. cbn. rewrite <- Heq.
        apply (list_elem_of_fmap_2 (fun r => ID (snd r))). exact Hr.
Qed.

(** One run of the detection job, whose results carry identifiers that are
    new to the table and pairwise distinct, is a sequence of such writes. *)
Lemma runOpportunityDetectionJob_reachable now
    (yieldGaps trending highScore : list (Time * Opportunity.t)) tbl :
  NoDup ((fun r => ID (snd r)) <$> (yieldGaps ++ trending ++ highScore)) ->
  (forall r, r ∈ yieldGaps ++ trending ++ highScore -> tbl !! ID (snd r) = None) ->
  reachable tbl (runOpportunityDetectionJob now yieldGaps trending highScore tbl).
Proof.
  intros Hnodup Hfresh. unfold runOpportunityDetectionJob. cbv zeta.
  assert (Hall : forall t,
             upsertAll highScore (upsertAll trending (upsertAll yieldGaps t))
             = upsertAll (yieldGaps ++ trending ++ highScore) t).
  { intros t. unfold upsertAll. now rewrite !foldl_app. }
  rewrite Hall. eapply rtc_l; [apply (step_sweep now) |].
  apply upsertAll_reachable; [exact Hnodup |].
  intros r Hr. rewrite sweep_lookup, (Hfresh r Hr). reflexivity.
Qed.




End PostgresFacts.

(** ** Asset grouping *)

Section OpportunityFacts.

Import models gostrings opportunity.

Lemma splitFrom_nonempty (sep : string) (skip : nat) (s : string) :
  splitFrom sep skip s <> [].
Proof.
  revert skip. induction s as [| c s IH]; intros skip; cbn [splitFrom]; [discriminate |].
  destruct skip as [| skip]; [| apply IH].
  destruct (String.prefix sep (String c s)); [discriminate |].
  destruct (splitFrom sep 0 s); discriminate.
Qed.

Lemma prefix_byte (sep c : ascii) (s : string) :
  String.prefix (String sep EmptyString) (String c s) = Ascii.eqb sep c.
Proof.
  simpl. destruct (ascii_dec sep c) as [-> | Hne].
  - rewrite Ascii.eqb_refl. now destruct s.
  - symmetry. now apply Ascii.eqb_neq.
Qed.

(** Splitting on a one-byte separator: the first part is the token in front
    of the first occurrence, and there are two parts or more exactly when
    the separator occurs. *)
Lemma Split_byte (sep : ascii) (s : string) :
  hd EmptyString (Split s (String sep EmptyString)) = spec.firstToken sep s
  /\ (2 <=? List.length (Split s (String sep EmptyString)))%nat = spec.occurs sep s.
Proof.
  unfold Split. induction s as [| c s [IHhd IHlen]]; [now split |].
  cbn [splitFrom spec.firstToken spec.occurs]. rewrite prefix_byte.
  destruct (Ascii.eqb sep c) eqn:E.
  - cbn. split; [reflexivity |].
    pose proof (splitFrom_nonempty (String sep EmptyString) 0 s) as Hne.
    destruct (splitFrom (String sep EmptyString) 0 s); [contradiction | reflexivity].
  - pose proof (splitFrom_nonempty (String sep EmptyString) 0 s) as Hne.
    destruct (splitFrom (String sep EmptyString) 0 s) as [| tok rest]; [contradiction |].
    cbn in *. split; [now rewrite IHhd | exact IHlen].
Qed.




Lemma splitOnSeparator_unfold (upper : string) :
  splitOnSeparator upper separators
  = if spec.occurs "-" upper then Some (TrimSpace (spec.firstToken "-" upper))
    else if spec.occurs "/" upper then Some (TrimSpace (spec.firstToken "/" upper))
    else if spec.occurs "_" upper then Some (TrimSpace (spec.firstToken "_" upper))
    else None.
Proof.
  unfold separators. cbn [splitOnSeparator].
  destruct (Split_byte "-" upper) as [-> ->].
  destruct (Split_byte "/" upper) as [-> ->].
  destruct (Split_byte "_" upper) as [-> ->].
  reflexivity.
Qed.

(** *** C5: the group key of a symbol *)




(** *** Groups *)

Lemma groupPoolsByAsset_snoc (pools : list Pool) (pool : Pool) :
  groupPoolsByAsset (pools ++ [pool]) = groupStep (groupPoolsByAsset pools) pool.
Proof. unfold groupPoolsByAsset. now rewrite foldl_app. Qed.

(** The group filed under a key holds, in input order, the pools whose
    symbol normalizes to that key; the empty key has no group. *)
Lemma groupPoolsByAsset_lookup (pools : list Pool) (key : string) :
  groupPoolsByAsset pools !! key
  = if String.eqb key EmptyString then None
    else match filter (fun p => normalizeAsset (Symbol p) = key) pools with
         | [] => None
         | group => Some group
         end.
Proof.
  induction pools as [| pool pools IH] using rev_ind.
  - cbn. rewrite lookup_empty. now destruct (String.eqb key EmptyString).
  - rewrite groupPoolsByAsset_snoc, filter_app. unfold groupStep.
    destruct (String.eqb_spec (normalizeAsset (Symbol pool)) EmptyString) as [Hempty | Hfull].
    + rewrite IH. destruct (String.eqb_spec key EmptyString) as [| Hkey]; [reflexivity |].
      rewrite filter_cons_False, filter_nil, app_nil_r by congruence. reflexivity.
    + destruct (decide (normalizeAsset (Symbol pool) = key)) as [Heq | Hne].
      * subst key. rewrite lookup_insert_eq, IH.
        destruct (String.eqb_spec (normalizeAsset (Symbol pool)) EmptyString); [contradiction |].
        rewrite filter_cons_True, filter_nil by reflexivity.
        destruct (filter _ pools); reflexivity.
      * rewrite lookup_insert_ne, IH by exact Hne.
        rewrite filter_cons_False, filter_nil, app_nil_r by exact Hne. reflexivity.
Qed.

End OpportunityFacts.

(** ** Fan-out hub *)

Section WebsocketFacts.

Import models websocket.

Implicit Types (h : Hub) (mem : gmap positive Client) (m : string).
Implicit Types (client : positive) (c : Client).

Lemma trySend_cases (ch : chan) m :
  (closed ch = true /\ trySend ch m = SendOnClosed)
  \/ (closed ch = false /\ (List.length (queue ch) < capacity ch)%nat
      /\ trySend ch m = Sent (mkChan (queue ch ++ [m]) (capacity ch) false))
  \/ (closed ch = false /\ (capacity ch <= List.length (queue ch))%nat
      /\ trySend ch m = Full).
Proof.
  unfold trySend. destruct (closed ch); [now left | right].
  destruct (Nat.ltb_spec (List.length (queue ch)) (capacity ch)); [left | right]; auto.
Qed.

(** A send never closes a queue and never reopens one. *)
Lemma deliver_closed m c : closed (Send (deliver m c)) = closed (Send c).
Proof.
  unfold deliver.
  destruct (trySend_cases (Send c) m) as [[Hc ->] | [(Hc & _ & ->) | (Hc & _ & ->)]];
    cbn; congruence.
Qed.

Lemma isFull_insert_ne m mem client client' c :
  client <> client' -> isFull m (<[client := c]> mem) client' = isFull m mem client'.
Proof. intros Hne. unfold isFull. now rewrite lookup_insert_ne. Qed.

(** The sending loop, over distinct targets: every target gets one
    non-blocking send, the other clients are untouched, and the targets
    found full are appended to [deadClients] in iteration order. *)
Lemma sendAll_Done m (targets : list positive) :
  NoDup targets ->
  forall mem deadClients mem' deadClients',
  sendAll m targets mem deadClients = Done (mem', deadClients') ->
  (forall client,
      mem' !! client
      = if decide (client ∈ targets) then deliver m <$> mem !! client
        else mem !! client)
  /\ deadClients' = deadClients ++ List.filter (isFull m mem) targets.
Proof.
  induction 1 as [| t targets Hnotin Hnodup IH]; intros mem dead mem' dead' Hrun.
  - cbn in Hrun. injection Hrun as <- <-. split.
    + intros client. rewrite decide_False; [reflexivity | apply not_elem_of_nil].
    + cbn. now rewrite app_nil_r.
  - cbn [sendAll] in Hrun. destruct (mem !! t) as [c |] eqn:Hc; [| discriminate].
    destruct (trySend (Send c) m) as [ch | |] eqn:Hsend; [| | discriminate].
    + destruct (IH _ _ _ _ Hrun) as [Hmem Hdead]. split.
      * intros client. rewrite Hmem.
        destruct (decide (client = t)) as [-> | Hne].
        -- rewrite (decide_False (P := t ∈ targets)) by exact Hnotin.
           rewrite decide_True by apply list_elem_of_here.
           rewrite lookup_insert_eq, Hc. cbn. unfold deliver. now rewrite Hsend.
        -- rewrite lookup_insert_ne by congruence.
           destruct (decide (client ∈ targets)) as [Hin | Hout].
           ++ rewrite decide_True; [reflexivity | now apply list_elem_of_further].
           ++ rewrite decide_False; [reflexivity |].
              rewrite elem_of_cons. tauto.
      * rewrite Hdead. f_equal. cbn [List.filter].
        unfold isFull at 2. rewrite Hc, Hsend.
        apply List.filter_ext_in. intros x Hx. apply isFull_insert_ne.
        intros ->. apply Hnotin. now apply list_elem_of_In.
    + destruct (IH _ _ _ _ Hrun) as [Hmem Hdead]. split.
      * intros client. rewrite Hmem.
        destruct (decide (client = t)) as [-> | Hne].
        -- rewrite (decide_False (P := t ∈ targets)) by exact Hnotin.
           rewrite decide_True by apply list_elem_of_here.
           rewrite Hc. cbn. unfold deliver. now rewrite Hsend.
        -- destruct (decide (client ∈ targets)) as [Hin | Hout].
           ++ rewrite decide_True; [reflexivity | now apply list_elem_of_further].
           ++ rewrite decide_False; [reflexivity |].
              rewrite elem_of_cons. tauto.
      * rewrite Hdead, <- app_assoc. f_equal. cbn [List.filter app].
        unfold isFull at 2. now rewrite Hc, Hsend.
Qed.

(** The sending loop runs to completion when every target is a live client
    with an open queue. *)
Lemma sendAll_total m (targets : list positive) :
  forall mem deadClients,
  NoDup targets ->
  (forall client, client ∈ targets ->
     exists c, mem !! client = Some c /\ closed (Send c) = false) ->
  exists mem' deadClients', sendAll m targets mem deadClients = Done (mem', deadClients').
Proof.
  induction targets as [| t targets IH]; intros mem dead Hnodup Hopen.
  - cbn. eauto.
  - apply NoDup_cons in Hnodup as [Hnotin Hnodup].
    destruct (Hopen t (list_elem_of_here _ _)) as (c & Hc & Hclosed).
    cbn [sendAll]. rewrite Hc.
    destruct (trySend_cases (Send c) m) as [[Hx _] | [(_ & _ & ->) | (_ & _ & ->)]];
      [congruence | |].
    + apply IH; [exact Hnodup |]. intros client Hin.
      destruct (Hopen client (list_elem_of_further _ _ _ Hin)) as (c' & Hc' & Hcl').
      destruct (decide (client = t)) as [-> | Hne]; [contradiction |].
      exists c'. now rewrite lookup_insert_ne by congruence.
    + apply IH; [exact Hnodup |]. intros client Hin.
      apply Hopen. now apply list_elem_of_further.
Qed.

Lemma deleteAll_elem_of (deadClients : list positive) (set : gset positive) client :
  client ∈ deleteAll deadClients set <-> client ∈ set /\ client ∉ deadClients.
Proof.
  unfold deleteAll. revert set.
  induction deadClients as [| d dead IH]; intros set; cbn [foldl].
  - rewrite elem_of_nil. tauto.
  - rewrite IH, elem_of_difference, elem_of_singleton, elem_of_cons. tauto.
Qed.

Section BroadcastFacts.

Variable marshalPool : Pool -> option string.
Variable marshalOpportunity : Opportunity.t -> option string.
Variable marshalMessage : Message -> option string.

(** With its subscribers open, [BroadcastPoolUpdate] returns. *)
Lemma BroadcastPoolUpdate_total (now : Time) (pool : Pool) h :
  subscribersOpen (poolClients h) (mem h) ->
  exists h', BroadcastPoolUpdate marshalPool marshalMessage now pool h = Done h'.
Proof.
  intros Hopen. unfold BroadcastPoolUpdate.
  destruct (marshalPool pool) as [data |]; [| eauto].
  destruct (marshalMessage _) as [msgBytes |]; [| eauto].
  destruct (sendAll_total msgBytes (elements (poolClients h)) (mem h) [])
    as (mem' & dead & ->).
  - apply NoDup_elements.
  - intros client Hin. apply Hopen. now apply elem_of_elements.
  - destruct (0 <? List.length dead)%nat; eauto.
Qed.

(** What [BroadcastPoolUpdate] does when it returns, [msgBytes] being the
    marshalled envelope.  Every pool subscriber gets one non-blocking send:
    with room in its queue the message is appended once; a full queue is
    left as it is and the subscriber leaves [poolClients].  Nothing else
    changes: [clients] and [opportunityClients] are the same sets and no
    queue is closed. *)
Lemma BroadcastPoolUpdate_Done (now : Time) (pool : Pool) (data msgBytes : string) h h' :
  marshalPool pool = Some data ->
  marshalMessage (mkMessage MessageTypePoolUpdate now data) = Some msgBytes ->
  BroadcastPoolUpdate marshalPool marshalMessage now pool h = Done h' ->
  clients h' = clients h
  /\ opportunityClients h' = opportunityClients h
  /\ (forall client,
        mem h' !! client
        = if decide (client ∈ poolClients h) then deliver msgBytes <$> mem h !! client
          else mem h !! client)
  /\ (forall client,
        client ∈ poolClients h'
        <-> client ∈ poolClients h /\ isFull msgBytes (mem h) client = false)
  /\ (forall client, closedOf h' client = closedOf h client).
Proof.
  intros Hdata Hmsg Hrun. unfold BroadcastPoolUpdate in Hrun.
  rewrite Hdata, Hmsg in Hrun.
  destruct (sendAll msgBytes (elements (poolClients h)) (mem h) [])
    as [[mem' dead] |] eqn:Hsend; [| discriminate].
  destruct (sendAll_Done msgBytes _ (NoDup_elements (poolClients h)) _ _ _ _ Hsend)
    as [Hmem Hdead].
  cbn [app] in Hdead.
  assert (Hmem' : forall client,
             mem' !! client
             = if decide (client ∈ poolClients h)
               then deliver msgBytes <$> mem h !! client else mem h !! client).
  { intros client. rewrite Hmem.
    destruct (decide (client ∈ elements (poolClients h))) as [Hin | Hout].
    - rewrite decide_True; [reflexivity | now apply elem_of_elements].
    - rewrite decide_False; [reflexivity | now rewrite <- elem_of_elements]. }
  assert (Hsets : forall client,
             client ∈ deleteAll dead (poolClients h)
             <-> client ∈ poolClients h /\ isFull msgBytes (mem h) client = false).
  { intros client. rewrite deleteAll_elem_of, Hdead.
    rewrite list_elem_of_In, List.filter_In, <- list_elem_of_In, elem_of_elements.
    destruct (isFull msgBytes (mem h) client); intuition congruence. }
  assert (Hclosed : forall client,
             (fun c => closed (Send c)) <$> mem' !! client
             = (fun c => closed (Send c)) <$> mem h !! client).
  { intros client. rewrite Hmem'.
    destruct (decide (client ∈ poolClients h)); [| reflexivity].
    destruct (mem h !! client) as [c |]; [| reflexivity].
    cbn. now rewrite deliver_closed. }
  destruct (0 <? List.length dead)%nat eqn:Hlen; injection Hrun as <-; cbn.
  - split; [reflexivity |]. split; [reflexivity |]. split; [exact Hmem' |].
    split; [exact Hsets | exact Hclosed].
  - apply Nat.ltb_ge in Hlen. destruct dead; [| cbn in Hlen; lia].
    split; [reflexivity |]. split; [reflexivity |]. split; [exact Hmem' |].
    split; [exact Hsets | exact Hclosed].
Qed.

(** A subscriber with room in its queue receives the message once and stays
    subscribed. *)
Lemma BroadcastPoolUpdate_delivers (now : Time) (pool : Pool)
    (data msgBytes : string) h h' client c :
  marshalPool pool = Some data ->
  marshalMessage (mkMessage MessageTypePoolUpdate now data) = Some msgBytes ->
  BroadcastPoolUpdate marshalPool marshalMessage now pool h = Done h' ->
  client ∈ poolClients h -> mem h !! client = Some c ->
  closed (Send c) = false ->
  (List.length (queue (Send c)) < capacity (Send c))%nat ->
  queueOf h' client = Some (queue (Send c) ++ [msgBytes])
  /\ client ∈ poolClients h'.
Proof.
  intros Hdata Hmsg Hrun Hin Hc Hopen Hroom.
  destruct (BroadcastPoolUpdate_Done now pool data msgBytes h h' Hdata Hmsg Hrun)
    as (_ & _ & Hmem & Hsets & _).
  destruct (trySend_cases (Send c) msgBytes)
    as [[Hx _] | [(_ & _ & Hsent) | (_ & Hfull & _)]]; [congruence | | lia].
  split.
  - unfold queueOf. rewrite Hmem, decide_True, Hc by exact Hin. cbn.
    unfold deliver. now rewrite Hsent.
  - apply Hsets. split; [exact Hin |]. unfold isFull. now rewrite Hc, Hsent.
Qed.

(** A saturated subscriber receives nothing and leaves [poolClients]; it
    stays in [clients], keeps its opportunity subscription, and its queue
    stays open. *)
Lemma BroadcastPoolUpdate_saturated (now : Time) (pool : Pool)
    (data msgBytes : string) h h' client c :
  marshalPool pool = Some data ->
  marshalMessage (mkMessage MessageTypePoolUpdate now data) = Some msgBytes ->
  BroadcastPoolUpdate marshalPool marshalMessage now pool h = Done h' ->
  client ∈ poolClients h -> mem h !! client = Some c ->
  closed (Send c) = false ->
  (capacity (Send c) <= List.length (queue (Send c)))%nat ->
  queueOf h' client = Some (queue (Send c))
  /\ (client ∉ poolClients h')
  /\ (client ∈ clients h' <-> client ∈ clients h)
  /\ (client ∈ opportunityClients h' <-> client ∈ opportunityClients h)
  /\ closedOf h' client = Some false.
Proof.
  intros Hdata Hmsg Hrun Hin Hc Hopen Hsat.
  destruct (BroadcastPoolUpdate_Done now pool data msgBytes h h' Hdata Hmsg Hrun)
    as (Hcl & Hopp & Hmem & Hsets & Hclosed).
  destruct (trySend_cases (Send c) msgBytes)
    as [[Hx _] | [(_ & Hroom & _) | (_ & _ & Hfull)]]; [congruence | lia |].
  split; [| split; [| split; [| split]]].
  - unfold queueOf. rewrite Hmem, decide_True, Hc by exact Hin. cbn.
    unfold deliver. now rewrite Hfull.
  - intros Hstill. apply Hsets in Hstill as [_ Hnot].
    unfold isFull in Hnot. rewrite Hc, Hfull in Hnot. discriminate.
  - now rewrite Hcl.
  - now rewrite Hopp.
  - rewrite Hclosed. unfold closedOf. rewrite Hc. cbn. now rewrite Hopen.
Qed.

End BroadcastFacts.

(** *** C1: a broadcast with one saturated connection *)

(** C1, the code at the input [samples.hub]: three pool subscribers, of which
    connection 3 has a full queue and is also subscribed to opportunity
    alerts.  [BroadcastPoolUpdate] returns; connections 1 and 2 each hold one
    copy of the message; connection 3 holds none and has left [poolClients].
    But connection 3 is still in [clients] and in [opportunityClients], and
    its queue is still open. *)
Theorem BroadcastPoolUpdate_keeps_saturated_client :
  exists h',
    BroadcastPoolUpdate samples.marshalPool samples.marshalMessage 0%Z
      samples.stable samples.hub = Done h'
    /\ queueOf h' 1%positive = Some [samples.update]
    /\ queueOf h' 2%positive = Some [samples.update]
    /\ queueOf h' 3%positive = Some (replicate 256 "earlier")
    /\ (3%positive ∉ poolClients h')
    /\ 3%positive ∈ clients h'
    /\ 3%positive ∈ opportunityClients h'
    /\ closedOf h' 3%positive = Some false.
Proof.
  eexists. split; [vm_compute; reflexivity |].
  split; [vm_compute; reflexivity |].
  split; [vm_compute; reflexivity |].
  split; [vm_compute; reflexivity |].
  split; [apply (bool_decide_unpack _); vm_compute; exact I |].
  split; [apply (bool_decide_unpack _); vm_compute; exact I |].
  split; [apply (bool_decide_unpack _); vm_compute; exact I |].
  vm_compute; reflexivity.
Qed.

(** The other topic behaves alike: connection 3 is the only subscriber of
    opportunity alerts; after [BroadcastOpportunityAlert] it has left
    [opportunityClients] only. *)
Lemma BroadcastOpportunityAlert_keeps_saturated_client :
  exists h',
    BroadcastOpportunityAlert samples.marshalOpportunity samples.marshalMessage 0%Z
      samples.current samples.hub = Done h'
    /\ queueOf h' 3%positive = Some (replicate 256 "earlier")
    /\ (3%positive ∉ opportunityClients h')
    /\ 3%positive ∈ clients h'
    /\ 3%positive ∈ poolClients h'
    /\ closedOf h' 3%positive = Some false.
Proof.
  eexists. split; [vm_compute; reflexivity |].
  split; [vm_compute; reflexivity |].
  split; [apply (bool_decide_unpack _); vm_compute; exact I |].
  split; [apply (bool_decide_unpack _); vm_compute; exact I |].
  split; [apply (bool_decide_unpack _); vm_compute; exact I |].
  vm_compute; reflexivity.
Qed.

(** The broadcast case of [Run], on the same hub and message, does evict:
    connection 3 leaves all three sets and its queue is closed. *)
Lemma Run_broadcast_evicts_saturated_client :
  exists h',
    Run_broadcast samples.update samples.hub = Done h'
    /\ queueOf h' 1%positive = Some [samples.update]
    /\ queueOf h' 2%positive = Some [samples.update]
    /\ (3%positive ∉ clients h')
    /\ (3%positive ∉ poolClients h')
    /\ (3%positive ∉ opportunityClients h')
    /\ closedOf h' 3%positive = Some true.
Proof.
  eexists. split; [vm_compute; reflexivity |].
  split; [vm_compute; reflexivity |].
  split; [vm_compute; reflexivity |].
  split; [apply (bool_decide_unpack _); vm_compute; exact I |].
  split; [apply (bool_decide_unpack _); vm_compute; exact I |].
  split; [apply (bool_decide_unpack _); vm_compute; exact I |].
  vm_compute; reflexivity.
Qed.

End WebsocketFacts.

(* ===================================================================== *)
(** * Further properties of the code *)
(* ===================================================================== *)

(** ** Scoring engine, continued *)

Section AnalyticsMore.

Import models config analytics.
Local Open Scope R_scope.

Lemma Log10_pow10 (n : nat) : math.Log10 (10 ^ n) = INR n.
Proof.
  unfold math.Log10. rewrite ln_pow by lra.
  pose proof ln_10_pos. field. lra.
Qed.

Lemma Log10_1000 : math.Log10 1000 = 3.
Proof. replace 1000 with (10 ^ 3) by lra. rewrite Log10_pow10. simpl. lra. Qed.

Lemma Log10_1e10 : math.Log10 10000000000 = 10.
Proof. replace 10000000000 with (10 ^ 10) by lra. rewrite Log10_pow10. simpl. lra. Qed.

Lemma Log10_nondecreasing (x y : R) : 0 < x -> x <= y -> math.Log10 x <= math.Log10 y.
Proof.
  intros Hx [Hlt | ->]; [left; now apply Log10_increasing | lra].
Qed.

Lemma normalizeTVL_pos (tvl : R) :
  0 < tvl -> normalizeTVL tvl = Rmax 0 (Rmin 1 ((math.Log10 tvl - 3) / (10 - 3))).
Proof.
  intros H. unfold normalizeTVL, math.Max, math.Min.
  destruct (Rle_dec tvl 0); [lra | reflexivity].
Qed.

Lemma normalizeTVL_nondecreasing (tvl1 tvl2 : R) :
  tvl1 <= tvl2 -> normalizeTVL tvl1 <= normalizeTVL tvl2.
Proof.
  intros Hle. destruct (Rle_dec tvl1 0) as [H1 | H1].
  - rewrite (normalizeTVL_nonpos tvl1 H1). apply normalizeTVL_range.
  - rewrite !normalizeTVL_pos by lra.
    apply Rle_max_compat_l, Rle_min_compat_l.
    pose proof (Log10_nondecreasing tvl1 tvl2 ltac:(lra) Hle). lra.
Qed.

(** X1.  The chain multiplier of every chain name lies between 0.75 and
    0.975, and it is exactly 0.75 for a chain without a rating: no rating of
    the table is below 50, so the lower half of the documented range
    0.5 - 1.0 is never used, and no chain reaches 1. *)
Theorem getChainSecurityMultiplier_bounds (chain : string) :
  0.75 <= getChainSecurityMultiplier chain <= 0.975
  /\ (chainSecurityRatings !! chain = None -> getChainSecurityMultiplier chain = 0.75).
Proof.
  split; [apply getChainSecurityMultiplier_range |].
  intros Hnone. unfold getChainSecurityMultiplier. rewrite Hnone. lra.
Qed.

(** X1, witness: "zksync" has no rating. *)
Lemma getChainSecurityMultiplier_bounds_zksync :
  getChainSecurityMultiplier "zksync" = 0.75.
Proof.
  apply (proj2 (getChainSecurityMultiplier_bounds "zksync")). reflexivity.
Defined.

(** X2.  [normalizeTVL] is non-decreasing, it is 0 for every tvl up to
    $1,000 and 1 for every tvl from $10,000,000,000 on. *)
Theorem normalizeTVL_shape (tvl1 tvl2 : R) :
  (tvl1 <= tvl2 -> normalizeTVL tvl1 <= normalizeTVL tvl2)
  /\ (tvl1 <= 1000 -> normalizeTVL tvl1 = 0)
  /\ (10000000000 <= tvl1 -> normalizeTVL tvl1 = 1).
Proof.
  split; [apply normalizeTVL_nondecreasing |]. split.
  - intros Hsmall. destruct (Rle_dec tvl1 0) as [H0 | H0].
    + now apply normalizeTVL_nonpos.
    + rewrite normalizeTVL_pos by lra.
      pose proof (Log10_nondecreasing tvl1 1000 ltac:(lra) Hsmall) as Hlog.
      rewrite Log10_1000 in Hlog.
      rewrite Rmin_right by lra. apply Rmax_left. lra.
  - intros Hbig. rewrite normalizeTVL_pos by lra.
    pose proof (Log10_nondecreasing 10000000000 tvl1 ltac:(lra) Hbig) as Hlog.
    rewrite Log10_1e10 in Hlog.
    rewrite Rmin_left by lra. apply Rmax_right. lra.
Qed.

(** X2, witness: $500 and $20,000,000,000. *)
Lemma normalizeTVL_shape_ends :
  normalizeTVL 500 <= normalizeTVL 20000000000
  /\ normalizeTVL 500 = 0
  /\ normalizeTVL 20000000000 = 1.
Proof.
  destruct (normalizeTVL_shape 500 20000000000) as (Hmono & Hlow & _).
  destruct (normalizeTVL_shape 20000000000 0) as (_ & _ & Hhigh).
  split; [apply Hmono; lra |]. split; [apply Hlow; lra | apply Hhigh; lra].
Defined.




Lemma normalizeTrend_nondecreasing (c1 c2 : R) :
  c1 <= c2 -> normalizeTrend c1 <= normalizeTrend c2.
Proof.
  intros Hle. unfold normalizeTrend, math.Max, math.Min.
  pose proof (Rle_max_compat_l _ _ (-100) (Rle_min_compat_l c1 c2 100 Hle)). lra.
Qed.



(** X5.  With non-negative weights that add up to at most 1 (the defaults add
    up to 1) the score of a pool is at most 100 times the multiplier of its
    chain, hence at most 97.5 on every chain and at most 75 on a chain
    without a rating: the final cap at 100 never applies, and no pool scores
    100. *)
Theorem CalculateScore_chain_cap (weights : ScoringConfig) (pool : Pool) :
  0 <= APYWeight weights -> 0 <= TVLWeight weights ->
  0 <= StabilityWeight weights -> 0 <= TrendWeight weights ->
  APYWeight weights + TVLWeight weights
  + StabilityWeight weights + TrendWeight weights <= 1 ->
  CalculateScore weights pool
  = weightedSum weights pool * getChainSecurityMultiplier (Chain pool) * 100
  /\ CalculateScore weights pool <= 100 * getChainSecurityMultiplier (Chain pool)
  /\ CalculateScore weights pool <= 97.5
  /\ (chainSecurityRatings !! Chain pool = None -> CalculateScore weights pool <= 75).
Proof.
  intros Ha Ht Hs Hr Hsum.
  pose proof (weightedSum_bounds weights pool Ha Ht Hs Hr) as Hw.
  pose proof (getChainSecurityMultiplier_range (Chain pool)) as Hm.
  assert (Heq : CalculateScore weights pool
                = weightedSum weights pool * getChainSecurityMultiplier (Chain pool) * 100).
  { rewrite CalculateScore_unfold. apply clamp_id. nra. }
  split; [exact Heq |]. rewrite Heq. split; [nra |]. split; [nra |].
  intros Hnone. unfold getChainSecurityMultiplier in *. rewrite Hnone in *. nra.
Qed.

(** X5, witness: the default weights and the pool [unrated]. *)
Lemma CalculateScore_chain_cap_unrated :
  CalculateScore defaultScoring samples.unrated <= 75.
Proof.
  refine (proj2 (proj2 (proj2 (CalculateScore_chain_cap defaultScoring samples.unrated
                                 _ _ _ _ _))) eq_refl); cbn; lra.
Defined.

(** X6.  With non-negative weights, a larger tvl or a larger 24-hour change,
    all other fields fixed, never lowers the score. *)
Theorem CalculateScore_monotone_tvl_trend (weights : ScoringConfig) (pool : Pool)
    (tvl' change' : R) :
  0 <= APYWeight weights -> 0 <= TVLWeight weights ->
  0 <= StabilityWeight weights -> 0 <= TrendWeight weights ->
  TVL pool <= tvl' -> APYChange24H pool <= change' ->
  CalculateScore weights pool
  <= CalculateScore weights
       (mkPool (ID pool) (Chain pool) (Protocol pool) (Symbol pool) tvl' (APY pool)
          (APYBase pool) (APYReward pool) (RewardTokens pool) (UnderlyingTokens pool)
          (PoolMeta pool) (IL7D pool) (APYMean30D pool) (VolumeUSD1D pool)
          (VolumeUSD7D pool) (Score pool) (APYChange1H pool) change'
          (APYChange7D pool) (StableCoin pool) (Exposure pool) (CreatedAt pool)
          (UpdatedAt pool)).
Proof.
  intros Ha Ht Hs Hr Htvl Hchange. rewrite !CalculateScore_unfold.
  unfold weightedSum, Float64. cbn [Chain TVL APY APYMean30D APYChange24H].
  pose proof (getChainSecurityMultiplier_range (Chain pool)) as Hm.
  pose proof (normalizeTVL_nondecreasing _ _ Htvl) as H1.
  pose proof (normalizeTrend_nondecreasing _ _ Hchange) as H2.
  unfold spec.clamp. apply Rle_max_compat_l, Rle_min_compat_l.
  pose proof (Rmult_le_compat_l _ _ _ Ht H1) as H3.
  pose proof (Rmult_le_compat_l _ _ _ Hr H2) as H4.
  apply Rmult_le_compat_r; [lra |]. apply Rmult_le_compat_r; lra.
Qed.

(** X6, witness: the pool [stable] with ten times its tvl and a 24-hour change
    of +20. *)
Lemma CalculateScore_monotone_tvl_trend_stable :
  CalculateScore defaultScoring samples.stable
  <= CalculateScore defaultScoring (samples.pool "ethereum" 1000000000 5 0 80 20).
Proof.
  apply (CalculateScore_monotone_tvl_trend defaultScoring samples.stable
           1000000000 20); cbn; lra.
Defined.








End AnalyticsMore.

(** ** Fan-out hub, continued *)

Section WebsocketMore.

Import models websocket.

Implicit Types (h : Hub) (mem : gmap positive Client) (m : string).
Implicit Types (client : positive) (c : Client).

Lemma deliver_bounded m c :
  (List.length (queue (Send c)) <= capacity (Send c))%nat ->
  (List.length (queue (Send (deliver m c))) <= capacity (Send (deliver m c)))%nat.
Proof.
  intros Hb. unfold deliver.
  destruct (trySend_cases (Send c) m) as [[_ ->] | [(_ & Hroom & ->) | (_ & _ & ->)]];
    cbn; [exact Hb | | exact Hb].
  rewrite length_app. cbn. lia.
Qed.

(** What the sending loop leaves in the store: at every address the same
    client, possibly with one more message; closed flags are kept and a
    bounded queue stays bounded. *)
Lemma sendAll_store m (targets : list positive) mem deadClients mem' deadClients' :
  NoDup targets ->
  sendAll m targets mem deadClients = Done (mem', deadClients') ->
  forall client,
    match mem !! client, mem' !! client with
    | Some c, Some c' =>
        closed (Send c') = closed (Send c)
        /\ ((List.length (queue (Send c)) <= capacity (Send c))%nat ->
            (List.length (queue (Send c')) <= capacity (Send c'))%nat)
    | None, None => True
    | _, _ => False
    end.
Proof.
  intros Hnodup Hrun client.
  destruct (sendAll_Done m targets Hnodup _ _ _ _ Hrun) as [Hmem _].
  rewrite Hmem. destruct (decide (client ∈ targets)); destruct (mem !! client); cbn; auto.
  split; [apply deliver_closed | apply deliver_bounded].
Qed.

Lemma sendAll_membersOpen m (targets : list positive) h mem' deadClients' :
  NoDup targets ->
  sendAll m targets (mem h) [] = Done (mem', deadClients') ->
  membersOpen h ->
  membersOpen (mkHub (clients h) (poolClients h) (opportunityClients h) mem').
Proof.
  intros Hnodup Hrun Hopen client Hin. cbn in *.
  destruct (Hopen client Hin) as (c & Hc & Hclosed).
  pose proof (sendAll_store m targets _ _ _ _ Hnodup Hrun client) as Hst.
  rewrite Hc in Hst. destruct (mem' !! client) as [c' |]; [| contradiction].
  exists c'. split; [reflexivity |]. destruct Hst as [-> _]. exact Hclosed.
Qed.

Lemma sendAll_queuesBounded m (targets : list positive) h mem' deadClients' :
  NoDup targets ->
  sendAll m targets (mem h) [] = Done (mem', deadClients') ->
  queuesBounded h ->
  queuesBounded (mkHub (clients h) (poolClients h) (opportunityClients h) mem').
Proof.
  intros Hnodup Hrun Hb client c' Hc'. cbn in *.
  pose proof (sendAll_store m targets _ _ _ _ Hnodup Hrun client) as Hst.
  rewrite Hc' in Hst. destruct (mem h !! client) as [c |] eqn:Hc; [| contradiction].
  destruct Hst as [_ Hst]. apply Hst. now apply (Hb client).
Qed.

(** The dead clients reported by the loop are targets. *)
Lemma sendAll_dead_targets m (targets : list positive) mem mem' deadClients' :
  NoDup targets ->
  sendAll m targets mem [] = Done (mem', deadClients') ->
  NoDup deadClients'
  /\ forall client, client ∈ deadClients' <-> client ∈ targets /\ isFull m mem client = true.
Proof.
  intros Hnodup Hrun.
  destruct (sendAll_Done m targets Hnodup _ _ _ _ Hrun) as [_ ->]. cbn [app].
  split.
  - apply NoDup_ListNoDup, List.NoDup_filter, NoDup_ListNoDup, Hnodup.
  - intros client. rewrite !list_elem_of_In, List.filter_In. tauto.
Qed.

(** [evict] on a hub whose members are open: it returns, keeps both
    invariants, and either removes a registered client from the three sets
    and closes its queue, or leaves the hub of an unregistered one alone. *)
Lemma evict_Done client h :
  membersOpen h ->
  exists h',
    evict client h = Done h'
    /\ membersOpen h'
    /\ (queuesBounded h -> queuesBounded h')
    /\ (client ∉ clients h -> h' = h)
    /\ (client ∈ clients h ->
        clients h' = clients h ∖ {[client]}
        /\ poolClients h' = poolClients h ∖ {[client]}
        /\ opportunityClients h' = opportunityClients h ∖ {[client]}
        /\ forall x, mem h' !! x
                     = if decide (x = client) then closeClient <$> mem h !! x
                       else mem h !! x).
Proof.
  intros Hopen. unfold evict.
  destruct (decide (client ∈ clients h)) as [Hin | Hout].
  - destruct (Hopen client) as (c & Hc & Hclosed).
    { rewrite !elem_of_union. tauto. }
    rewrite Hc. unfold close. rewrite Hclosed.
    eexists. split; [reflexivity |]. split; [| split; [| split]].
    + intros x Hx. cbn in Hx. cbn [mem].
      assert (Hne : x <> client).
      { intros ->. rewrite !elem_of_union, !elem_of_difference, elem_of_singleton in Hx.
        tauto. }
      rewrite lookup_insert_ne by congruence. apply Hopen.
      rewrite !elem_of_union, !elem_of_difference in Hx.
      rewrite !elem_of_union. tauto.
    + intros Hb x cx. cbn. destruct (decide (x = client)) as [-> | Hne].
      * rewrite lookup_insert_eq. intros [= <-]. cbn. now apply (Hb client).
      * rewrite lookup_insert_ne by congruence. apply Hb.
    + contradiction.
    + intros _. cbn. repeat split. intros x.
      destruct (decide (x = client)) as [-> | Hne].
      * rewrite lookup_insert_eq, Hc. reflexivity.
      * now rewrite lookup_insert_ne by congruence.
  - exists h. split; [reflexivity |]. split; [exact Hopen |].
    split; [auto |]. split; [reflexivity | contradiction].
Qed.

(** X10.  Unregistering, on a hub whose members are open, always returns.  A
    registered client leaves the three sets and its queue is closed with its
    pending messages kept; an unregistered client changes nothing, even if
    it is still in a topic set.  Unregistering again is a no-op. *)
Theorem Run_unregister_idempotent client h :
  membersOpen h ->
  exists h',
    Run_unregister client h = Done h'
    /\ Run_unregister client h' = Done h'
    /\ (client ∉ clients h -> h' = h)
    /\ (client ∈ clients h ->
        (client ∉ clients h') /\ (client ∉ poolClients h')
        /\ (client ∉ opportunityClients h')
        /\ closedOf h' client = Some true
        /\ queueOf h' client = queueOf h client).
Proof.
  intros Hopen. unfold Run_unregister.
  destruct (evict_Done client h Hopen) as (h' & Hrun & Hopen' & _ & Hout & Hin).
  exists h'. split; [exact Hrun |]. split; [| split; [exact Hout |]].
  - destruct (decide (client ∈ clients h)) as [Hreg | Hnot].
    + destruct (Hin Hreg) as (Hcl & _).
      unfold evict. rewrite decide_False; [reflexivity |].
      rewrite Hcl, elem_of_difference, elem_of_singleton. tauto.
    + specialize (Hout Hnot). subst h'. exact Hrun.
  - intros Hreg. destruct (Hin Hreg) as (Hcl & Hpool & Hopp & Hmem).
    destruct (Hopen client) as (c & Hc & Hclosed).
    { rewrite !elem_of_union. tauto. }
    rewrite Hcl, Hpool, Hopp, !elem_of_difference, elem_of_singleton.
    split; [tauto |]. split; [tauto |]. split; [tauto |]. split.
    + unfold closedOf. rewrite Hmem, decide_True, Hc by reflexivity. reflexivity.
    + unfold queueOf. rewrite Hmem, decide_True, Hc by reflexivity. reflexivity.
Qed.

(** The dead-client loop of [Run], over distinct registered clients. *)
Lemma evictAll_Done (deadClients : list positive) :
  forall h,
  NoDup deadClients ->
  (forall d, d ∈ deadClients -> d ∈ clients h) ->
  membersOpen h ->
  exists h',
    evictAll deadClients h = Done h'
    /\ membersOpen h'
    /\ (queuesBounded h -> queuesBounded h')
    /\ (forall x, x ∈ clients h' <-> x ∈ clients h /\ x ∉ deadClients)
    /\ (forall x, x ∈ poolClients h' <-> x ∈ poolClients h /\ x ∉ deadClients)
    /\ (forall x, x ∈ opportunityClients h'
                  <-> x ∈ opportunityClients h /\ x ∉ deadClients)
    /\ (forall x, mem h' !! x
                  = if decide (x ∈ deadClients) then closeClient <$> mem h !! x
                    else mem h !! x).
Proof.
  induction deadClients as [| d dead IH]; intros h Hnodup Hreg Hopen.
  - exists h. cbn. split; [reflexivity |]. split; [exact Hopen |]. split; [auto |].
    split; [| split; [| split]]; intros x.
    + pose proof (not_elem_of_nil x). tauto.
    + pose proof (not_elem_of_nil x). tauto.
    + pose proof (not_elem_of_nil x). tauto.
    + rewrite decide_False; [reflexivity | apply not_elem_of_nil].
  - apply NoDup_cons in Hnodup as [Hnotin Hnodup].
    destruct (evict_Done d h Hopen) as (h1 & Hrun1 & Hopen1 & Hb1 & _ & Hin1).
    destruct (Hin1 (Hreg d (list_elem_of_here _ _))) as (Hcl & Hpool & Hopp & Hmem).
    destruct (IH h1 Hnodup) as (h' & Hrun & Hopen' & Hb' & Hcl' & Hpool' & Hopp' & Hmem').
    { intros d' Hd'. rewrite Hcl, elem_of_difference, elem_of_singleton.
      split; [apply Hreg; now apply list_elem_of_further |]. intros ->. contradiction. }
    { exact Hopen1. }
    exists h'. cbn [evictAll]. rewrite Hrun1. split; [exact Hrun |].
    split; [exact Hopen' |]. split; [auto |].
    split; [| split; [| split]].
    + intros x. rewrite Hcl', Hcl, elem_of_difference, elem_of_singleton, elem_of_cons. tauto.
    + intros x. rewrite Hpool', Hpool, elem_of_difference, elem_of_singleton, elem_of_cons.
      tauto.
    + intros x. rewrite Hopp', Hopp, elem_of_difference, elem_of_singleton, elem_of_cons.
      tauto.
    + intros x. rewrite Hmem', Hmem.
      destruct (decide (x = d)) as [-> | Hne].
      * rewrite (decide_False (P := d ∈ dead)) by exact Hnotin.
        rewrite decide_True by apply list_elem_of_here. reflexivity.
      * destruct (decide (x ∈ dead)) as [Hx | Hx].
        -- rewrite decide_True; [reflexivity | now apply list_elem_of_further].
        -- rewrite decide_False; [reflexivity |]. rewrite elem_of_cons. tauto.
Qed.

(** The broadcast case of [Run] on a hub whose members are open. *)
Lemma Run_broadcast_Done m h :
  membersOpen h ->
  exists h',
    Run_broadcast m h = Done h'
    /\ membersOpen h'
    /\ (queuesBounded h -> queuesBounded h')
    /\ (forall x, x ∈ clients h' <-> x ∈ clients h /\ isFull m (mem h) x = false)
    /\ (forall x, x ∈ poolClients h'
                  <-> x ∈ poolClients h /\ ~ (x ∈ clients h /\ isFull m (mem h) x = true))
    /\ (forall x, x ∈ opportunityClients h'
                  <-> x ∈ opportunityClients h
                      /\ ~ (x ∈ clients h /\ isFull m (mem h) x = true))
    /\ (forall x, mem h' !! x
                  = if decide (x ∈ clients h)
                    then (fun c => if isFull m (mem h) x then closeClient c
                                   else deliver m c) <$> mem h !! x
                    else mem h !! x).
Proof.
  intros Hopen. unfold Run_broadcast.
  destruct (sendAll_total m (elements (clients h)) (mem h) [] (NoDup_elements _))
    as (mem1 & dead & Hsend).
  { intros client Hin. apply Hopen. rewrite !elem_of_union.
    left. left. now apply elem_of_elements. }
  rewrite Hsend.
  pose proof (sendAll_membersOpen m _ h _ _ (NoDup_elements _) Hsend Hopen) as Hopen1.
  pose proof (sendAll_queuesBounded m _ h _ _ (NoDup_elements _) Hsend) as Hb1.
  destruct (sendAll_dead_targets m _ _ _ _ (NoDup_elements _) Hsend) as [Hnd Hdead].
  destruct (sendAll_Done m _ (NoDup_elements _) _ _ _ _ Hsend) as [Hmem1 _].
  set (h1 := mkHub (clients h) (poolClients h) (opportunityClients h) mem1) in *.
  assert (Hrun : forall r, evictAll dead h1 = r ->
                 (if (0 <? List.length dead)%nat then evictAll dead h1 else Done h1) = r).
  { intros r <-. destruct dead; reflexivity. }
  destruct (evictAll_Done dead h1 Hnd) as (h' & Hev & Hopen' & Hb' & Hcl & Hpool & Hopp & Hmem).
  { intros d Hd. apply Hdead in Hd as [Hd _]. cbn. now apply elem_of_elements in Hd. }
  { exact Hopen1. }
  exists h'. split; [now apply Hrun |]. split; [exact Hopen' |]. split; [auto |].
  assert (Hd : forall x, x ∈ dead <-> x ∈ clients h /\ isFull m (mem h) x = true).
  { intros x. rewrite Hdead, elem_of_elements. tauto. }
  split; [| split; [| split]].
  - intros x. rewrite Hcl, Hd. cbn. destruct (isFull m (mem h) x); intuition congruence.
  - intros x. rewrite Hpool, Hd. cbn. tauto.
  - intros x. rewrite Hopp, Hd. cbn. tauto.
  - intros x. rewrite Hmem. cbn [mem h1]. rewrite Hmem1.
    destruct (decide (x ∈ clients h)) as [Hx | Hx].
    + rewrite (decide_True (P := x ∈ elements (clients h))) by now apply elem_of_elements.
      destruct (isFull m (mem h) x) eqn:Hfull.
      * rewrite decide_True by (apply Hd; tauto).
        destruct (mem h !! x) as [c |] eqn:Hc; [| reflexivity]. cbn.
        unfold isFull in Hfull. rewrite Hc in Hfull. unfold deliver.
        destruct (trySend (Send c) m); try discriminate. reflexivity.
      * rewrite decide_False; [reflexivity |]. rewrite Hd. intros [_ ?]. congruence.
    + rewrite (decide_False (P := x ∈ elements (clients h)))
        by now rewrite elem_of_elements.
      rewrite decide_False; [reflexivity |]. rewrite Hd. tauto.
Qed.

(** X11.  The broadcast case of [Run], on a hub whose members are open, always
    returns, and it treats every registered client in one of two ways.  With
    room in its queue the client receives the message once and keeps its
    registration and subscriptions.  With a full queue it receives nothing,
    leaves [clients] and both topic sets, and its queue is closed.  Clients
    that are not registered are not touched. *)
Theorem Run_broadcast_delivers_or_evicts m h :
  membersOpen h ->
  exists h',
    Run_broadcast m h = Done h'
    /\ (forall client c,
          client ∈ clients h -> mem h !! client = Some c ->
          ((List.length (queue (Send c)) < capacity (Send c))%nat ->
             queueOf h' client = Some (queue (Send c) ++ [m])
             /\ closedOf h' client = Some false
             /\ client ∈ clients h'
             /\ (client ∈ poolClients h' <-> client ∈ poolClients h)
             /\ (client ∈ opportunityClients h' <-> client ∈ opportunityClients h))
          /\ ((capacity (Send c) <= List.length (queue (Send c)))%nat ->
             queueOf h' client = Some (queue (Send c))
             /\ closedOf h' client = Some true
             /\ (client ∉ clients h')
             /\ (client ∉ poolClients h')
             /\ (client ∉ opportunityClients h')))
    /\ (forall client, client ∉ clients h -> mem h' !! client = mem h !! client).
Proof.
  intros Hopen.
  destruct (Run_broadcast_Done m h Hopen)
    as (h' & Hrun & _ & _ & Hcl & Hpool & Hopp & Hmem).
  exists h'. split; [exact Hrun |]. split.
  - intros client c Hin Hc.
    destruct (Hopen client) as (c0 & Hc0 & Hclosed).
    { rewrite !elem_of_union. tauto. }
    rewrite Hc in Hc0. injection Hc0 as <-.
    unfold queueOf, closedOf. rewrite Hmem, decide_True, Hc by exact Hin.
    rewrite Hcl, Hpool, Hopp. unfold isFull. rewrite Hc. cbn.
    destruct (trySend_cases (Send c) m)
      as [[Hx _] | [(_ & Hroom & Hsent) | (_ & Hfull & Hsent)]]; [congruence | |].
    + split; [| intros; lia]. intros _. unfold deliver. rewrite Hsent. cbn.
      repeat split; try tauto; intros [? ?]; try discriminate; tauto.
    + split; [intros; lia |]. intros _. rewrite Hsent. cbn.
      repeat split; try tauto; intros [? ?]; try discriminate; tauto.
  - intros client Hout. rewrite Hmem. now rewrite decide_False.
Qed.

(** Both invariants carry over to a hub with fewer members whose store holds,
    at every address, the same client with its closed flag kept and a bounded
    queue still bounded. *)
Lemma invariants_carry h h' :
  (forall x, x ∈ clients h' ∪ poolClients h' ∪ opportunityClients h' ->
             x ∈ clients h ∪ poolClients h ∪ opportunityClients h) ->
  (forall x,
      match mem h !! x, mem h' !! x with
      | Some c, Some c' =>
          closed (Send c') = closed (Send c)
          /\ ((List.length (queue (Send c)) <= capacity (Send c))%nat ->
              (List.length (queue (Send c')) <= capacity (Send c'))%nat)
      | None, None => True
      | _, _ => False
      end) ->
  (membersOpen h -> membersOpen h') /\ (queuesBounded h -> queuesBounded h').
Proof.
  intros Hsets Hmem. split.
  - intros Hopen x Hx. destruct (Hopen x (Hsets x Hx)) as (c & Hc & Hclosed).
    specialize (Hmem x). rewrite Hc in Hmem.
    destruct (mem h' !! x) as [c' |]; [| contradiction].
    exists c'. split; [reflexivity |]. destruct Hmem as [-> _]. exact Hclosed.
  - intros Hb x c' Hc'. specialize (Hmem x). rewrite Hc' in Hmem.
    destruct (mem h !! x) as [c |] eqn:Hc; [| contradiction].
    destruct Hmem as [_ Hmem]. apply Hmem. now apply (Hb x).
Qed.

Lemma connect_invariants client id h (pool opp : bool) :
  mem h !! client = None ->
  let h' := mkHub (clients h ∪ {[client]})
                  (if pool then poolClients h ∪ {[client]} else poolClients h)
                  (if opp then opportunityClients h ∪ {[client]}
                   else opportunityClients h)
                  (<[client := NewClient id]> (mem h)) in
  (membersOpen h -> membersOpen h') /\ (queuesBounded h -> queuesBounded h').
Proof.
  intros Hfresh h'. split.
  - intros Hopen x Hx. cbn [mem h']. destruct (decide (x = client)) as [-> | Hne].
    + rewrite lookup_insert_eq. eexists. split; reflexivity.
    + rewrite lookup_insert_ne by congruence. apply Hopen.
      unfold h' in Hx. cbn in Hx. destruct pool, opp;
        rewrite !elem_of_union, ?elem_of_singleton in Hx;
        rewrite !elem_of_union; tauto.
  - intros Hb x c. cbn [mem h']. destruct (decide (x = client)) as [-> | Hne].
    + rewrite lookup_insert_eq. intros [= <-]. cbn. lia.
    + rewrite lookup_insert_ne by congruence. apply Hb.
Qed.

Lemma recv_invariants client h :
  (membersOpen h -> membersOpen (WritePump_recv client h))
  /\ (queuesBounded h -> queuesBounded (WritePump_recv client h)).
Proof.
  apply invariants_carry.
  - intros x. unfold WritePump_recv. destruct (mem h !! client); auto.
  - intros x. unfold WritePump_recv. destruct (mem h !! client) as [c |] eqn:Hc.
    + cbn [mem]. destruct (decide (x = client)) as [-> | Hne].
      * rewrite lookup_insert_eq, Hc. cbn. split; [reflexivity |].
        destruct (queue (Send c)); cbn; lia.
      * rewrite lookup_insert_ne by congruence. destruct (mem h !! x); auto.
    + destruct (mem h !! x); auto.
Qed.

Section StepFacts.

Variable marshalPool : Pool -> option string.
Variable marshalOpportunity : Opportunity.t -> option string.
Variable marshalMessage : Message -> option string.

(** With its subscribers open, [BroadcastOpportunityAlert] returns. *)
Lemma BroadcastOpportunityAlert_total (now : Time) (opp : Opportunity.t) h :
  subscribersOpen (opportunityClients h) (mem h) ->
  exists h',
    BroadcastOpportunityAlert marshalOpportunity marshalMessage now opp h = Done h'.
Proof.
  intros Hopen. unfold BroadcastOpportunityAlert.
  destruct (marshalOpportunity opp) as [data |]; [| eauto].
  destruct (marshalMessage _) as [msgBytes |]; [| eauto].
  destruct (sendAll_total msgBytes (elements (opportunityClients h)) (mem h) [])
    as (mem' & dead & ->).
  - apply NoDup_elements.
  - intros client Hin. apply Hopen. now apply elem_of_elements.
  - destruct (0 <? List.length dead)%nat; eauto.
Qed.

(** The effect of a topic broadcast that returns, for either topic: the hub
    is unchanged (a marshalling error), or every subscriber of the topic got
    one non-blocking send of the same bytes and the full ones left the topic
    set. *)
Lemma BroadcastPoolUpdate_effect (now : Time) (pool : Pool) h h' :
  BroadcastPoolUpdate marshalPool marshalMessage now pool h = Done h' ->
  h' = h
  \/ exists msgBytes,
       clients h' = clients h
       /\ opportunityClients h' = opportunityClients h
       /\ (forall x, x ∈ poolClients h'
                     <-> x ∈ poolClients h /\ isFull msgBytes (mem h) x = false)
       /\ (forall x, mem h' !! x
                     = if decide (x ∈ poolClients h) then deliver msgBytes <$> mem h !! x
                       else mem h !! x).
Proof.
  intros Hrun.
  destruct (marshalPool pool) as [data |] eqn:Hdata.
  - destruct (marshalMessage (mkMessage MessageTypePoolUpdate now data))
      as [msgBytes |] eqn:Hmsg.
    + right. exists msgBytes.
      destruct (BroadcastPoolUpdate_Done marshalPool marshalMessage now pool data
                  msgBytes h h' Hdata Hmsg Hrun) as (H1 & H2 & H3 & H4 & _).
      auto.
    + left. unfold BroadcastPoolUpdate in Hrun. rewrite Hdata, Hmsg in Hrun.
      now injection Hrun.
  - left. unfold BroadcastPoolUpdate in Hrun. rewrite Hdata in Hrun. now injection Hrun.
Qed.

Lemma BroadcastOpportunityAlert_Done (now : Time) (opp : Opportunity.t)
    (data msgBytes : string) h h' :
  marshalOpportunity opp = Some data ->
  marshalMessage (mkMessage MessageTypeOpportunityAlert now data) = Some msgBytes ->
  BroadcastOpportunityAlert marshalOpportunity marshalMessage now opp h = Done h' ->
  clients h' = clients h
  /\ poolClients h' = poolClients h
  /\ (forall x, x ∈ opportunityClients h'
                <-> x ∈ opportunityClients h /\ isFull msgBytes (mem h) x = false)
  /\ (forall x, mem h' !! x
                = if decide (x ∈ opportunityClients h)
                  then deliver msgBytes <$> mem h !! x
                  else mem h !! x).
Proof.
  intros Hdata Hmsg Hrun. unfold BroadcastOpportunityAlert in Hrun.
  rewrite Hdata, Hmsg in Hrun.
  destruct (sendAll msgBytes (elements (opportunityClients h)) (mem h) [])
    as [[mem' dead] |] eqn:Hsend; [| discriminate].
  destruct (sendAll_Done msgBytes _ (NoDup_elements (opportunityClients h)) _ _ _ _ Hsend)
    as [Hmem Hdead].
  cbn [app] in Hdead.
  assert (Hmem' : forall x,
             mem' !! x
             = if decide (x ∈ opportunityClients h)
               then deliver msgBytes <$> mem h !! x else mem h !! x).
  { intros x. rewrite Hmem.
    destruct (decide (x ∈ elements (opportunityClients h))) as [Hin | Hout].
    - rewrite decide_True; [reflexivity | now apply elem_of_elements].
    - rewrite decide_False; [reflexivity | now rewrite <- elem_of_elements]. }
  assert (Hsets : forall x,
             x ∈ deleteAll dead (opportunityClients h)
             <-> x ∈ opportunityClients h /\ isFull msgBytes (mem h) x = false).
  { intros x. rewrite deleteAll_elem_of, Hdead.
    rewrite list_elem_of_In, List.filter_In, <- list_elem_of_In, elem_of_elements.
    destruct (isFull msgBytes (mem h) x); intuition congruence. }
  destruct (0 <? List.length dead)%nat eqn:Hlen; injection Hrun as <-; cbn.
  - split; [reflexivity |]. split; [reflexivity |]. split; [exact Hsets | exact Hmem'].
  - apply Nat.ltb_ge in Hlen. destruct dead; [| cbn in Hlen; lia].
    split; [reflexivity |]. split; [reflexivity |]. split; [exact Hsets | exact Hmem'].
Qed.

Lemma BroadcastOpportunityAlert_effect (now : Time) (opp : Opportunity.t) h h' :
  BroadcastOpportunityAlert marshalOpportunity marshalMessage now opp h = Done h' ->
  h' = h
  \/ exists msgBytes,
       clients h' = clients h
       /\ poolClients h' = poolClients h
       /\ (forall x, x ∈ opportunityClients h'
                     <-> x ∈ opportunityClients h /\ isFull msgBytes (mem h) x = false)
       /\ (forall x, mem h' !! x
                     = if decide (x ∈ opportunityClients h)
                       then deliver msgBytes <$> mem h !! x
                       else mem h !! x).
Proof.
  intros Hrun.
  destruct (marshalOpportunity opp) as [data |] eqn:Hdata.
  - destruct (marshalMessage (mkMessage MessageTypeOpportunityAlert now data))
      as [msgBytes |] eqn:Hmsg.
    + right. exists msgBytes.
      apply (BroadcastOpportunityAlert_Done now opp data msgBytes h h' Hdata Hmsg Hrun).
    + left. unfold BroadcastOpportunityAlert in Hrun. rewrite Hdata, Hmsg in Hrun.
      now injection Hrun.
  - left. unfold BroadcastOpportunityAlert in Hrun. rewrite Hdata in Hrun.
    now injection Hrun.
Qed.

(** A topic broadcast keeps the invariants: the sets only shrink and every
    client is the same, possibly with one more message. *)
Lemma deliver_store_invariants m (set : gset positive) h h' :
  (forall x, x ∈ clients h' ∪ poolClients h' ∪ opportunityClients h' ->
             x ∈ clients h ∪ poolClients h ∪ opportunityClients h) ->
  (forall x, mem h' !! x
             = if decide (x ∈ set) then deliver m <$> mem h !! x else mem h !! x) ->
  (membersOpen h -> membersOpen h') /\ (queuesBounded h -> queuesBounded h').
Proof.
  intros Hsets Hmem. apply invariants_carry; [exact Hsets |].
  intros x. rewrite Hmem. destruct (decide (x ∈ set)); destruct (mem h !! x); cbn; auto.
  split; [apply deliver_closed | apply deliver_bounded].
Qed.

(** Every operation keeps the three invariants of the hub. *)
Lemma step_invariants h h' :
  step marshalPool marshalOpportunity marshalMessage h h' ->
  membersOpen h /\ queuesBounded h
  /\ (forall x, x ∈ poolClients h ∪ opportunityClients h -> x ∈ clients h) ->
  membersOpen h' /\ queuesBounded h'
  /\ (forall x, x ∈ poolClients h' ∪ opportunityClients h' -> x ∈ clients h').
Proof.
  intros Hstep (Hopen & Hb & Hsub).
  destruct Hstep as [client id h Hfresh | client id h Hfresh | client h h' Hrun
                    | m h h' Hrun | now pool h h' Hrun | now opp h h' Hrun
                    | client h | client h | client h].
  - destruct (connect_invariants client id h true false Hfresh) as [H1 H2].
    split; [exact (H1 Hopen) |]. split; [exact (H2 Hb) |].
    intros x. cbn. specialize (Hsub x). rewrite !elem_of_union in *.
    rewrite elem_of_singleton. tauto.
  - destruct (connect_invariants client id h false true Hfresh) as [H1 H2].
    split; [exact (H1 Hopen) |]. split; [exact (H2 Hb) |].
    intros x. cbn. specialize (Hsub x). rewrite !elem_of_union in *.
    rewrite elem_of_singleton. tauto.
  - destruct (evict_Done client h Hopen) as (h1 & Hrun1 & Hopen1 & Hb1 & Hout & Hin).
    unfold Run_unregister in Hrun. rewrite Hrun1 in Hrun. injection Hrun as <-.
    split; [exact Hopen1 |]. split; [auto |].
    destruct (decide (client ∈ clients h)) as [Hreg | Hnot].
    + destruct (Hin Hreg) as (-> & -> & -> & _). intros x. specialize (Hsub x).
      rewrite !elem_of_union, !elem_of_difference in *. tauto.
    + now rewrite (Hout Hnot).
  - destruct (Run_broadcast_Done m h Hopen)
      as (h1 & Hrun1 & Hopen1 & Hb1 & Hcl & Hpool & Hopp & _).
    rewrite Hrun1 in Hrun. injection Hrun as <-.
    split; [exact Hopen1 |]. split; [auto |].
    intros x. specialize (Hsub x). rewrite elem_of_union, Hcl, Hpool, Hopp.
    rewrite elem_of_union in Hsub.
    destruct (isFull m (mem h) x); intuition congruence.
  - destruct (BroadcastPoolUpdate_effect now pool h h' Hrun)
      as [-> | (m & Hcl & Hopp & Hpool & Hmem)]; [auto |].
    assert (Hsets : forall x, x ∈ clients h' ∪ poolClients h' ∪ opportunityClients h' ->
                              x ∈ clients h ∪ poolClients h ∪ opportunityClients h).
    { intros x. rewrite !elem_of_union, Hcl, Hopp, Hpool. tauto. }
    destruct (deliver_store_invariants m (poolClients h) h h' Hsets Hmem) as [H1 H2].
    split; [auto |]. split; [auto |].
    intros x. specialize (Hsub x). rewrite elem_of_union, Hcl, Hopp, Hpool.
    rewrite elem_of_union in Hsub. tauto.
  - destruct (BroadcastOpportunityAlert_effect now opp h h' Hrun)
      as [-> | (m & Hcl & Hpool & Hopp & Hmem)]; [auto |].
    assert (Hsets : forall x, x ∈ clients h' ∪ poolClients h' ∪ opportunityClients h' ->
                              x ∈ clients h ∪ poolClients h ∪ opportunityClients h).
    { intros x. rewrite !elem_of_union, Hcl, Hopp, Hpool. tauto. }
    destruct (deliver_store_invariants m (opportunityClients h) h h' Hsets Hmem)
      as [H1 H2].
    split; [auto |]. split; [auto |].
    intros x. specialize (Hsub x). rewrite elem_of_union, Hcl, Hopp, Hpool.
    rewrite elem_of_union in Hsub. tauto.
  - split; [| split].
    + intros x Hx. apply Hopen. cbn in Hx.
      rewrite !elem_of_union, elem_of_difference in Hx. rewrite !elem_of_union. tauto.
    + exact Hb.
    + intros x. cbn. specialize (Hsub x).
      rewrite elem_of_union, elem_of_difference. rewrite elem_of_union in Hsub. tauto.
  - split; [| split].
    + intros x Hx. apply Hopen. cbn in Hx.
      rewrite !elem_of_union, elem_of_difference in Hx. rewrite !elem_of_union. tauto.
    + exact Hb.
    + intros x. cbn. specialize (Hsub x).
      rewrite elem_of_union, elem_of_difference. rewrite elem_of_union in Hsub. tauto.
  - destruct (recv_invariants client h) as [H1 H2].
    split; [auto |]. split; [auto |].
    unfold WritePump_recv. destruct (mem h !! client); exact Hsub.
Qed.

Lemma reachable_invariants_hold h :
  reachable marshalPool marshalOpportunity marshalMessage h ->
  membersOpen h /\ queuesBounded h
  /\ (forall x, x ∈ poolClients h ∪ opportunityClients h -> x ∈ clients h).
Proof.
  unfold reachable. revert h.
  apply (rtc_ind_r (fun h =>
           membersOpen h /\ queuesBounded h
           /\ (forall x, x ∈ poolClients h ∪ opportunityClients h -> x ∈ clients h))).
  - split; [| split].
    + intros x Hx. cbn in Hx. rewrite !elem_of_union in Hx.
      pose proof (not_elem_of_empty (C := gset positive) x). tauto.
    + intros x c Hc. cbn in Hc. now rewrite lookup_empty in Hc.
    + intros x Hx. cbn in Hx. rewrite elem_of_union in Hx.
      pose proof (not_elem_of_empty (C := gset positive) x). tauto.
  - intros h1 h2 _ Hstep IH. exact (step_invariants h1 h2 Hstep IH).
Qed.


(** X13.  On every reachable hub the four operations that send on or close a
    channel return: no broadcast sends on a closed channel and no eviction
    closes a channel twice. *)
Theorem reachable_hub_no_panic h :
  reachable marshalPool marshalOpportunity marshalMessage h ->
  (forall message, exists h', Run_broadcast message h = Done h')
  /\ (forall client, exists h', Run_unregister client h = Done h')
  /\ (forall now pool,
        exists h', BroadcastPoolUpdate marshalPool marshalMessage now pool h = Done h')
  /\ (forall now opp,
        exists h',
          BroadcastOpportunityAlert marshalOpportunity marshalMessage now opp h = Done h').
Proof.
  intros Hreach. destruct (reachable_invariants_hold h Hreach) as (Hopen & _ & _).
  split; [| split; [| split]].
  - intros m. destruct (Run_broadcast_Done m h Hopen) as (h' & Hrun & _). eauto.
  - intros client. destruct (evict_Done client h Hopen) as (h' & Hrun & _). eauto.
  - intros now pool. apply BroadcastPoolUpdate_total.
    intros client Hin. apply Hopen. rewrite !elem_of_union. tauto.
  - intros now opp. apply BroadcastOpportunityAlert_total.
    intros client Hin. apply Hopen. rewrite !elem_of_union. tauto.
Qed.

(** X14.  Two pool updates broadcast one after the other reach a subscriber in
    that order: if its queue has room for two messages, it ends with the
    first update followed by the second, behind what it held. *)
Theorem BroadcastPoolUpdate_fifo (now1 now2 : Time) (pool1 pool2 : Pool)
    (data1 data2 msg1 msg2 : string) h h1 h2 client c :
  marshalPool pool1 = Some data1 ->
  marshalMessage (mkMessage MessageTypePoolUpdate now1 data1) = Some msg1 ->
  marshalPool pool2 = Some data2 ->
  marshalMessage (mkMessage MessageTypePoolUpdate now2 data2) = Some msg2 ->
  BroadcastPoolUpdate marshalPool marshalMessage now1 pool1 h = Done h1 ->
  BroadcastPoolUpdate marshalPool marshalMessage now2 pool2 h1 = Done h2 ->
  client ∈ poolClients h -> mem h !! client = Some c ->
  closed (Send c) = false ->
  (List.length (queue (Send c)) + 2 <= capacity (Send c))%nat ->
  queueOf h2 client = Some (queue (Send c) ++ [msg1; msg2]).
Proof.
  intros Hd1 Hm1 Hd2 Hm2 Hrun1 Hrun2 Hin Hc Hopen Hroom.
  destruct (BroadcastPoolUpdate_Done marshalPool marshalMessage now1 pool1 data1 msg1
              h h1 Hd1 Hm1 Hrun1) as (_ & _ & Hmem1 & Hsets1 & _).
  destruct (BroadcastPoolUpdate_Done marshalPool marshalMessage now2 pool2 data2 msg2
              h1 h2 Hd2 Hm2 Hrun2) as (_ & _ & Hmem2 & _ & _).
  assert (Hsent1 : trySend (Send c) msg1
                   = Sent (mkChan (queue (Send c) ++ [msg1]) (capacity (Send c)) false)).
  { destruct (trySend_cases (Send c) msg1)
      as [[Hx _] | [(_ & _ & Hs) | (_ & Hfull & _)]]; [congruence | exact Hs | lia]. }
  assert (Hin1 : client ∈ poolClients h1).
  { apply Hsets1. split; [exact Hin |]. unfold isFull. now rewrite Hc, Hsent1. }
  unfold queueOf. rewrite Hmem2, decide_True by exact Hin1.
  rewrite Hmem1, decide_True, Hc by exact Hin. cbn.
  unfold deliver at 2. rewrite Hsent1.
  set (c1 := mkClient (ID c)
               (mkChan (queue (Send c) ++ [msg1]) (capacity (Send c)) false)).
  assert (Hlen : List.length (queue (Send c1)) = S (List.length (queue (Send c)))).
  { cbn. rewrite length_app. cbn. lia. }
  unfold deliver.
  destruct (trySend_cases (Send c1) msg2)
    as [[Hx _] | [(_ & _ & ->) | (_ & Hfull & _)]].
  - discriminate.
  - cbn. now rewrite <- app_assoc.
  - rewrite Hlen in Hfull. cbn in Hfull. lia.
Qed.

(** X15.  An opportunity alert that is marshalled and broadcast reaches the
    subscribers of opportunity alerts only.  A subscriber with room in its
    queue gets one copy and stays subscribed; a client that is not
    subscribed to opportunity alerts, for instance a pool-update subscriber,
    is not touched; and [clients] and [poolClients] are unchanged. *)
Theorem BroadcastOpportunityAlert_topic_only (now : Time) (opp : Opportunity.t)
    (data msgBytes : string) h h' :
  marshalOpportunity opp = Some data ->
  marshalMessage (mkMessage MessageTypeOpportunityAlert now data) = Some msgBytes ->
  BroadcastOpportunityAlert marshalOpportunity marshalMessage now opp h = Done h' ->
  clients h' = clients h
  /\ poolClients h' = poolClients h
  /\ (forall client, client ∉ opportunityClients h ->
        mem h' !! client = mem h !! client /\ (client ∉ opportunityClients h'))
  /\ (forall client c,
        client ∈ opportunityClients h -> mem h !! client = Some c ->
        closed (Send c) = false ->
        (List.length (queue (Send c)) < capacity (Send c))%nat ->
        queueOf h' client = Some (queue (Send c) ++ [msgBytes])
        /\ client ∈ opportunityClients h').
Proof.
  intros Hdata Hmsg Hrun.
  destruct (BroadcastOpportunityAlert_Done now opp data msgBytes h h' Hdata Hmsg Hrun)
    as (Hcl & Hpool & Hsets & Hmem).
  split; [exact Hcl |]. split; [exact Hpool |]. split.
  - intros client Hout. split.
    + rewrite Hmem. now rewrite decide_False.
    + rewrite Hsets. tauto.
  - intros client c Hin Hc Hopen Hroom.
    destruct (trySend_cases (Send c) msgBytes)
      as [[Hx _] | [(_ & _ & Hsent) | (_ & Hfull & _)]]; [congruence | | lia].
    split.
    + unfold queueOf. rewrite Hmem, decide_True, Hc by exact Hin. cbn.
      unfold deliver. now rewrite Hsent.
    + apply Hsets. split; [exact Hin |]. unfold isFull. now rewrite Hc, Hsent.
Qed.

(** X16.  A connection on the pool endpoint followed by a pool update: on a
    hub whose members are open, after [HandlePoolUpdates] has created,
    registered and subscribed a client at an unused address, the next pool
    update that marshals returns and leaves exactly that update in the new
    client's queue. *)
Theorem HandlePoolUpdates_then_update (client : positive) (id : string)
    (now : Time) (pool : Pool) (data msgBytes : string) h :
  membersOpen h ->
  mem h !! client = None ->
  marshalPool pool = Some data ->
  marshalMessage (mkMessage MessageTypePoolUpdate now data) = Some msgBytes ->
  exists h',
    BroadcastPoolUpdate marshalPool marshalMessage now pool
      (HandlePoolUpdates_connect client id h) = Done h'
    /\ queueOf h' client = Some [msgBytes]
    /\ client ∈ poolClients h'
    /\ client ∈ clients h'.
Proof.
  intros Hopen Hfresh Hdata Hmsg.
  destruct (connect_invariants client id h true false Hfresh) as [Hopen1 _].
  specialize (Hopen1 Hopen).
  change (mkHub _ _ _ _) with (HandlePoolUpdates_connect client id h) in Hopen1.
  destruct (BroadcastPoolUpdate_total marshalPool marshalMessage now pool
              (HandlePoolUpdates_connect client id h)) as [h' Hrun].
  { intros x Hx. apply Hopen1. rewrite !elem_of_union. tauto. }
  exists h'. split; [exact Hrun |].
  assert (Hin : client ∈ poolClients (HandlePoolUpdates_connect client id h)).
  { cbn. rewrite elem_of_union, elem_of_singleton. tauto. }
  assert (Hc : mem (HandlePoolUpdates_connect client id h) !! client
               = Some (NewClient id)).
  { cbn. apply lookup_insert_eq. }
  destruct (BroadcastPoolUpdate_delivers marshalPool marshalMessage now pool data msgBytes
              _ h' client (NewClient id) Hdata Hmsg Hrun Hin Hc eq_refl)
    as [Hq Hsub].
  { cbn. lia. }
  split; [exact Hq |]. split; [exact Hsub |].
  destruct (BroadcastPoolUpdate_Done marshalPool marshalMessage now pool data msgBytes
              _ h' Hdata Hmsg Hrun) as (-> & _).
  cbn. rewrite elem_of_union, elem_of_singleton. tauto.
Qed.

End StepFacts.

(** X10, witness: unregistering connection 3 of the hub [samples.hub]. *)
Lemma Run_unregister_idempotent_hub :
  exists h',
    Run_unregister 3%positive samples.hub = Done h'
    /\ Run_unregister 3%positive h' = Done h'
    /\ (3%positive ∉ clients h')
    /\ closedOf h' 3%positive = Some true.
Proof.
  assert (Hopen : membersOpen samples.hub).
  { intros x Hx.
    assert (Hx' : x = 1%positive \/ x = 2%positive \/ x = 3%positive).
    { cbn in Hx. rewrite !elem_of_union, !elem_of_singleton in Hx. tauto. }
    destruct Hx' as [-> | [-> | ->]]; eexists; split; reflexivity. }
  destruct (Run_unregister_idempotent 3%positive samples.hub Hopen)
    as (h' & Hrun & Hagain & _ & Hin).
  exists h'. split; [exact Hrun |]. split; [exact Hagain |].
  destruct Hin as (H1 & _ & _ & H2 & _).
  { cbn. rewrite !elem_of_union, !elem_of_singleton. tauto. }
  split; assumption.
Defined.

Lemma samples_hub_open : membersOpen samples.hub.
Proof.
  intros x Hx.
  assert (Hx' : x = 1%positive \/ x = 2%positive \/ x = 3%positive).
  { cbn in Hx. rewrite !elem_of_union, !elem_of_singleton in Hx. tauto. }
  destruct Hx' as [-> | [-> | ->]]; eexists; split; reflexivity.
Qed.

Lemma NewHub_open : membersOpen NewHub.
Proof.
  intros x Hx. cbn in Hx. rewrite !elem_of_union in Hx.
  pose proof (not_elem_of_empty (C := gset positive) x). tauto.
Qed.

(** X11, witness: the hub [samples.hub]; connection 1 has room, connection 3
    is saturated. *)
Lemma Run_broadcast_delivers_or_evicts_hub :
  exists h',
    Run_broadcast samples.update samples.hub = Done h'
    /\ queueOf h' 1%positive = Some [samples.update]
    /\ (3%positive ∉ clients h')
    /\ closedOf h' 3%positive = Some true.
Proof.
  destruct (Run_broadcast_delivers_or_evicts samples.update samples.hub samples_hub_open)
    as (h' & Hrun & Hclients & _).
  exists h'. split; [exact Hrun |].
  destruct (Hclients 1%positive (NewClient "c1")) as [Hroom _].
  { cbn. rewrite !elem_of_union, !elem_of_singleton. tauto. }
  { reflexivity. }
  destruct (Hclients 3%positive samples.saturated) as [_ Hfull].
  { cbn. rewrite !elem_of_union, !elem_of_singleton. tauto. }
  { reflexivity. }
  destruct Hroom as (Hq & _); [cbn; lia |].
  destruct Hfull as (_ & Hcl & Hout & _); [cbn; lia |].
  split; [exact Hq |]. split; [exact Hout | exact Hcl].
Defined.

Lemma first_connection_reachable :
  reachable samples.marshalPool samples.marshalOpportunity samples.marshalMessage
    (HandlePoolUpdates_connect 1%positive "c1" NewHub).
Proof. apply rtc_once, step_connect_pool. reflexivity. Qed.


(** X13, witness: the hub after its first connection. *)
Lemma reachable_hub_no_panic_first_connection :
  exists h',
    BroadcastPoolUpdate samples.marshalPool samples.marshalMessage 0%Z samples.stable
      (HandlePoolUpdates_connect 1%positive "c1" NewHub) = Done h'.
Proof.
  destruct (reachable_hub_no_panic samples.marshalPool samples.marshalOpportunity
              samples.marshalMessage _ first_connection_reachable) as (_ & _ & H & _).
  apply H.
Defined.

(** X14, witness: two updates of the pool [stable] sent to [samples.hub];
    connection 1 starts with an empty queue. *)
Lemma BroadcastPoolUpdate_fifo_hub :
  exists h1 h2,
    BroadcastPoolUpdate samples.marshalPool samples.marshalMessage 0%Z samples.stable
      samples.hub = Done h1
    /\ BroadcastPoolUpdate samples.marshalPool samples.marshalMessage 1%Z samples.stable
         h1 = Done h2
    /\ queueOf h2 1%positive = Some [samples.update; samples.update].
Proof.
  evar (h1 : Hub).
  assert (Hrun1 : BroadcastPoolUpdate samples.marshalPool samples.marshalMessage 0%Z
                    samples.stable samples.hub = Done h1)
    by (unfold h1; vm_compute; reflexivity).
  evar (h2 : Hub).
  assert (Hrun2 : BroadcastPoolUpdate samples.marshalPool samples.marshalMessage 1%Z
                    samples.stable h1 = Done h2)
    by (unfold h1, h2; vm_compute; reflexivity).
  exists h1, h2. split; [exact Hrun1 |]. split; [exact Hrun2 |].
  apply (BroadcastPoolUpdate_fifo samples.marshalPool samples.marshalMessage
           0%Z 1%Z samples.stable samples.stable "pool-1" "pool-1"
           samples.update samples.update samples.hub h1 h2 1%positive (NewClient "c1"));
    [reflexivity | reflexivity | reflexivity | reflexivity | exact Hrun1 | exact Hrun2
    | apply (bool_decide_unpack _); vm_compute; exact I
    | reflexivity | reflexivity | cbn; lia].
Defined.

(** X15, witness: an alert for the opportunity [current] on [NewHub] after a
    connection on the opportunity endpoint (address 2) and one on the pool
    endpoint (address 1). *)
Lemma BroadcastOpportunityAlert_topic_only_two_clients :
  let h := HandlePoolUpdates_connect 1%positive "c1"
             (HandleOpportunityAlerts_connect 2%positive "c2" NewHub) in
  exists h',
    BroadcastOpportunityAlert samples.marshalOpportunity samples.marshalMessage 0%Z
      samples.current h = Done h'
    /\ queueOf h' 2%positive = Some ["update:opp-2"]
    /\ queueOf h' 1%positive = Some [].
Proof.
  intros h. evar (h' : Hub).
  assert (Hrun : BroadcastOpportunityAlert samples.marshalOpportunity
                   samples.marshalMessage 0%Z samples.current h = Done h')
    by (unfold h, h'; vm_compute; reflexivity).
  exists h'. split; [exact Hrun |].
  destruct (BroadcastOpportunityAlert_topic_only
              samples.marshalOpportunity samples.marshalMessage 0%Z samples.current
              "opp-2" "update:opp-2" h h' eq_refl eq_refl Hrun)
    as (_ & _ & Hother & Hsub).
  split.
  - apply (Hsub 2%positive (NewClient "c2"));
      [apply (bool_decide_unpack _); vm_compute; exact I
      | reflexivity | reflexivity | cbn; lia].
  - assert (Hout : 1%positive ∉ opportunityClients h)
      by (apply (bool_decide_unpack _); vm_compute; exact I).
    unfold queueOf. rewrite (proj1 (Hother 1%positive Hout)). reflexivity.
Defined.

(** X16, witness: the first connection to [NewHub], then an update of the pool
    [stable]. *)
Lemma HandlePoolUpdates_then_update_first :
  exists h',
    BroadcastPoolUpdate samples.marshalPool samples.marshalMessage 0%Z samples.stable
      (HandlePoolUpdates_connect 1%positive "c1" NewHub) = Done h'
    /\ queueOf h' 1%positive = Some [samples.update]
    /\ 1%positive ∈ poolClients h'
    /\ 1%positive ∈ clients h'.
Proof.
  apply (HandlePoolUpdates_then_update samples.marshalPool samples.marshalMessage
           1%positive "c1" 0%Z samples.stable "pool-1" samples.update NewHub
           NewHub_open); reflexivity.
Defined.

End WebsocketMore.

(** ** Opportunity table, continued *)

Section PostgresMore.

Import models postgres.
Import Opportunity.

Implicit Types (tbl : gmap string Opportunity.t) (row opp : Opportunity.t).
Implicit Types (now : Time) (id : string).



(** X18.  An upsert cannot keep an expired opportunity alive: it does not
    write [expires_at], so if the stored row with the same id expires before
    [now2], the sweep at [now2] that follows the upsert leaves the row
    inactive, whatever the incoming opportunity says. *)
Theorem upsert_then_sweep_expired now1 now2 opp tbl row :
  tbl !! ID opp = Some row ->
  (ExpiresAt row < now2)%Z ->
  exists row',
    DeactivateExpiredOpportunities now2 (UpsertOpportunity now1 opp tbl) !! ID opp
    = Some row'
    /\ IsActive row' = false
    /\ ExpiresAt row' = ExpiresAt row.
Proof.
  intros Hrow Hexp. rewrite sweep_lookup, upsert_lookup_same, Hrow. cbn [fmap option_fmap option_map].
  destruct (expired now2 (onConflictUpdate now1 row opp)) eqn:E.
  - eexists. split; [reflexivity |]. split; reflexivity.
  - eexists. split; [reflexivity |]. split; [| reflexivity].
    apply expired_false in E as [E | E]; [exact E |]. cbn in E. lia.
Qed.

(** X18, witness: the lapsed row "opp-1" (expired at 100), upserted as active
    at 500 and swept at 600. *)
Lemma upsert_then_sweep_expired_opp1 :
  exists row',
    DeactivateExpiredOpportunities 600%Z
      (UpsertOpportunity 500%Z samples.revived (<["opp-1" := samples.lapsed]> ∅))
      !! "opp-1" = Some row'
    /\ IsActive row' = false.
Proof.
  assert (Hrow : (<["opp-1" := samples.lapsed]> ∅ : gmap string Opportunity.t)
                   !! ID samples.revived = Some samples.lapsed) by reflexivity.
  destruct (upsert_then_sweep_expired 500%Z 600%Z samples.revived _ samples.lapsed Hrow)
    as (row' & Hrow' & Hinactive & _).
  - cbn. lia.
  - exists row'. split; assumption.
Defined.

(** X19.  After a sweep at [now] no stored opportunity is both active and
    expired before [now]; the sweep activates nothing; and it keeps every
    column of every row except [is_active] and [updated_at]. *)
Theorem sweep_postcondition now tbl id row' :
  DeactivateExpiredOpportunities now tbl !! id = Some row' ->
  (IsActive row' = true -> (now <= ExpiresAt row')%Z)
  /\ exists row,
       tbl !! id = Some row
       /\ (IsActive row' = true -> IsActive row = true)
       /\ ExpiresAt row' = ExpiresAt row /\ DetectedAt row' = DetectedAt row
       /\ LastSeenAt row' = LastSeenAt row /\ CreatedAt row' = CreatedAt row
       /\ ID row' = ID row /\ Title row' = Title row
       /\ PotentialProfit row' = PotentialProfit row /\ Score row' = Score row
       /\ RiskLevel_ row' = RiskLevel_ row.
Proof.
  rewrite sweep_lookup. destruct (tbl !! id) as [row |]; [| discriminate].
  cbn. intros [= <-]. destruct (expired now row) eqn:E.
  - split; [discriminate |]. exists row. split; [reflexivity |]. cbn.
    split; [discriminate |]. tauto.
  - split.
    + intros Hact. apply expired_false in E as [E | E]; [congruence | exact E].
    + exists row. tauto.
Qed.

(** X19, witness: the row "opp-2" (active until 900) after a sweep at 500. *)
Lemma sweep_postcondition_opp2 :
  (500 <= ExpiresAt samples.current)%Z.
Proof.
  refine (proj1 (sweep_postcondition 500%Z (<["opp-2" := samples.current]> ∅)
                   "opp-2" samples.current _) _); reflexivity.
Defined.

(** X20.  Sweeps compose along time: after a sweep at [now1], a sweep at a
    later time [now2] leaves the same opportunities active as the sweep at
    [now2] alone would. *)
Theorem sweep_twice now1 now2 tbl id :
  (now1 <= now2)%Z ->
  IsActive <$> DeactivateExpiredOpportunities now2
                 (DeactivateExpiredOpportunities now1 tbl) !! id
  = IsActive <$> DeactivateExpiredOpportunities now2 tbl !! id.
Proof.
  intros Hle. rewrite !sweep_lookup. destruct (tbl !! id) as [row |]; [| reflexivity].
  cbn. f_equal.
  destruct (expired now1 row) eqn:E1; [| reflexivity].
  replace (expired now2 (setInactive now1 row)) with false by reflexivity.
  destruct (expired now2 row) eqn:E2; [reflexivity |].
  apply expired_true in E1 as [Hact Hexp].
  apply expired_false in E2 as [E2 | E2]; [congruence | lia].
Qed.

(** X20, witness: the rows [overdue] and [current], swept at 200 and at
    500. *)
Lemma sweep_twice_200_500 :
  let tbl : gmap string Opportunity.t :=
    <["opp-3" := samples.overdue]> (<["opp-2" := samples.current]> ∅) in
  IsActive <$> DeactivateExpiredOpportunities 500%Z
                 (DeactivateExpiredOpportunities 200%Z tbl) !! "opp-3"
  = IsActive <$> DeactivateExpiredOpportunities 500%Z tbl !! "opp-3".
Proof.
  intros tbl. apply (sweep_twice 200%Z 500%Z tbl "opp-3"). lia.
Defined.




End PostgresMore.

(** ** Asset grouping, continued *)

Section OpportunityMore.

Import models gostrings opportunity.

Lemma upperByte_idempotent (c : ascii) : upperByte (upperByte c) = upperByte c.
Proof. destruct c as [[] [] [] [] [] [] [] []]; reflexivity. Qed.

Lemma ToUpper_idempotent (s : string) : ToUpper (ToUpper s) = ToUpper s.
Proof.
  induction s as [| c s IH]; [reflexivity |].
  cbn. now rewrite upperByte_idempotent, IH.
Qed.

Lemma ToUpper_cons (c : ascii) (s : string) :
  ToUpper (String c s) = String c s -> upperByte c = c /\ ToUpper s = s.
Proof. cbn. intros [= Hc Hs]. now split. Qed.

Lemma firstToken_upper (sep : ascii) (s : string) :
  ToUpper s = s -> ToUpper (spec.firstToken sep s) = spec.firstToken sep s.
Proof.
  induction s as [| c s IH]; [reflexivity |].
  intros H. apply ToUpper_cons in H as [Hc Hs]. cbn.
  destruct (Ascii.eqb sep c); [reflexivity |]. cbn. now rewrite Hc, IH.
Qed.

Lemma trimLeft_upper (s : string) : ToUpper s = s -> ToUpper (trimLeft s) = trimLeft s.
Proof.
  induction s as [| c s IH]; [reflexivity |].
  intros H. pose proof H as H'. apply ToUpper_cons in H' as [Hc Hs]. cbn [trimLeft].
  destruct (isSpace c); [now apply IH | exact H].
Qed.

Lemma trimRight_upper (s : string) : ToUpper s = s -> ToUpper (trimRight s) = trimRight s.
Proof.
  induction s as [| c s IH]; [reflexivity |].
  intros H. apply ToUpper_cons in H as [Hc Hs]. cbn [trimRight].
  specialize (IH Hs). destruct (trimRight s) as [| t ts].
  - destruct (isSpace c); [reflexivity |]. cbn. now rewrite Hc.
  - change (ToUpper (String c (String t ts)))
      with (String (upperByte c) (ToUpper (String t ts))).
    now rewrite Hc, IH.
Qed.

Lemma TrimSpace_upper (s : string) : ToUpper s = s -> ToUpper (TrimSpace s) = TrimSpace s.
Proof. intros H. unfold TrimSpace. now apply trimRight_upper, trimLeft_upper. Qed.

Lemma matchSingleAsset_In (symbol : string) (assets : list string) (asset : string) :
  matchSingleAsset symbol assets = Some asset -> In asset assets.
Proof.
  induction assets as [| a assets IH]; [discriminate |]. cbn.
  destruct (_ || _ || _); [intros [= ->]; now left | intros H; right; now apply IH].
Qed.

(** X22.  The group key does not depend on the case of the symbol's ASCII
    letters, and it never contains a lower-case ASCII letter. *)
Theorem normalizeAsset_case_insensitive (symbol : string) :
  normalizeAsset (ToUpper symbol) = normalizeAsset symbol
  /\ ToUpper (normalizeAsset symbol) = normalizeAsset symbol.
Proof.
  split.
  - unfold normalizeAsset. now rewrite ToUpper_idempotent.
  - unfold normalizeAsset. cbv zeta.
    pose proof (ToUpper_idempotent symbol) as Hup.
    set (upper := ToUpper symbol) in *.
    destruct (matchSingleAsset upper singleAssets) as [asset |] eqn:Hmatch.
    + apply matchSingleAsset_In in Hmatch. unfold singleAssets in Hmatch.
      cbn in Hmatch.
      repeat (destruct Hmatch as [<- | Hmatch]; [reflexivity |]). contradiction.
    + rewrite splitOnSeparator_unfold.
      destruct (spec.occurs "-" upper); [now apply TrimSpace_upper, firstToken_upper |].
      destruct (spec.occurs "/" upper); [now apply TrimSpace_upper, firstToken_upper |].
      destruct (spec.occurs "_" upper); [now apply TrimSpace_upper, firstToken_upper |].
      exact Hup.
Qed.

(** X23.  [groupPoolsByAsset] files every pool whose key is not empty under
    its key and nowhere else: a group holds, in input order, exactly the
    pools of that key; no group is empty; no group is filed under the empty
    key; and a pool whose key is empty is in no group. *)
Theorem groupPoolsByAsset_groups (pools : list Pool) :
  (forall key group,
      groupPoolsByAsset pools !! key = Some group ->
      key <> EmptyString /\ group <> []
      /\ group = filter (fun p => normalizeAsset (Symbol p) = key) pools)
  /\ (forall pool,
        pool ∈ pools -> normalizeAsset (Symbol pool) <> EmptyString ->
        exists group,
          groupPoolsByAsset pools !! normalizeAsset (Symbol pool) = Some group
          /\ pool ∈ group).
Proof.
  split.
  - intros key group. rewrite groupPoolsByAsset_lookup.
    destruct (String.eqb_spec key EmptyString) as [| Hkey]; [discriminate |].
    destruct (filter _ pools) as [| p ps] eqn:Hf; [discriminate |].
    intros [= <-]. split; [exact Hkey |]. split; [discriminate | reflexivity].
  - intros pool Hin Hkey. rewrite groupPoolsByAsset_lookup.
    destruct (String.eqb_spec (normalizeAsset (Symbol pool)) EmptyString);
      [contradiction |].
    assert (Hmem : pool ∈ filter (fun p => normalizeAsset (Symbol p)
                                          = normalizeAsset (Symbol pool)) pools).
    { apply list_elem_of_filter. split; [reflexivity | exact Hin]. }
    destruct (filter _ pools) as [| p ps]; [now apply elem_of_nil in Hmem |].
    eexists. split; [reflexivity | exact Hmem].
Qed.

(** X23, witness: the two USDC pools of the yield-gap example, A (apy 3.5) and
    B (apy 4.2). *)
Lemma groupPoolsByAsset_groups_example :
  let a := samples.pool "ethereum" 500000000 3.5 0 0 0 in
  let b := samples.pool "polygon" 300000000 4.2 0 0 0 in
  exists group,
    groupPoolsByAsset [a; b] !! "USDC" = Some group /\ b ∈ group.
Proof.
  intros a b.
  destruct (groupPoolsByAsset_groups [a; b]) as [_ Hin].
  apply (Hin b).
  - apply list_elem_of_further, list_elem_of_here.
  - discriminate.
Defined.

End OpportunityMore.

(* ===================================================================== *)
(** ** The table [pools] *)

Section PoolsTableMore.

Import models postgres.

Implicit Types (tbl : gmap string Pool) (pool row old : Pool).
Implicit Types (now : Time) (id : string).






End PoolsTableMore.

(* ===================================================================== *)
(** ** The feed job *)

Section FeedJobMore.

Import models postgres worker.

Implicit Types (tbl : gmap string Pool) (row old : Pool) (id : string).
Implicit Types (weights : config.ScoringConfig) (threshold : R).
Implicit Types (e : defillama.Pool * Time * option Time).
Implicit Types (feed pre post : list (defillama.Pool * Time * option Time)).











End FeedJobMore.

(* ===================================================================== *)
(** ** The yield gap of one group *)

Section YieldGapMore.

Import models analytics opportunity.
Local Open Scope R_scope.


Variable formatTitle : string -> R -> string.
Variable formatDescription : string -> Pool -> Pool -> R -> Z -> string.


End YieldGapMore.

(* ===================================================================== *)
(** ** The retries of [FetchPools] *)

Section FetchPoolsMore.

Import defillama.

(** Two failures, then a response with status 200 and an empty list. *)
Example FetchPools_third_attempt :
  FetchPools (fun attempt => if (attempt <? 3)%nat then DoError
                             else DoResponse 200 (Some []))
             (fun _ => false)
  = (FetchOk [], 3%nat, 5%nat).
Proof. reflexivity. Qed.

(** A response with status 503 on the first attempt is not retried. *)
Example FetchPools_bad_status :
  FetchPools (fun _ => DoResponse 503 None) (fun _ => false)
  = (FetchBadStatus 503, 1%nat, 0%nat).
Proof. reflexivity. Qed.

(** X29.  [FetchPools] sends at most three requests and sleeps 1 second
    after the first failure and 4 seconds after the second, 5 seconds at
    most.  Every request before the last one failed in transport, with the
    context alive during its back-off.  The result is fixed by the last
    request: a response is read whatever its status, so a status other than
    200 is an error that is not retried; a transport failure ends the call
    as "failed after 3 attempts" on the third request and as the context's
    error before, when the context is cancelled.  The loop is never left
    without a response. *)
Theorem FetchPools_retries (do : nat -> doResult) (ctxDone : nat -> bool) :
  let '(result, calls, slept) := FetchPools do ctxDone in
  (1 <= calls <= 3)%nat
  /\ slept = match calls with 1 => 0 | 2 => 1 | _ => 5 end%nat
  /\ (forall k, (1 <= k < calls)%nat -> do k = DoError /\ ctxDone k = false)
  /\ result = match do calls with
              | DoResponse statusCode decoded => readResponse statusCode decoded
              | DoError => if (calls =? 3)%nat then FetchFailedAfterRetries
                           else FetchCancelled
              end
  /\ (do calls = DoError -> calls <> 3%nat -> ctxDone calls = true)
  /\ result <> FetchNoResponse.
Proof.
  assert (Hread : forall statusCode decoded,
             readResponse statusCode decoded <> FetchNoResponse).
  { intros statusCode decoded. unfold readResponse.
    destruct (negb _); [discriminate |]. destruct decoded; discriminate. }
  assert (H0 : forall k, (1 <= k < 1)%nat -> do k = DoError /\ ctxDone k = false)
    by (intros k Hk; lia).
  cbv [FetchPools retryLoop maxRetries Nat.leb Nat.add Nat.mul]. cbn [Nat.eqb].
  destruct (do 1%nat) as [| status1 decoded1] eqn:D1.
  2: { rewrite D1. repeat split;
         first [lia | discriminate | apply Hread | now intros | exact H0 | now apply H0]. }
  destruct (ctxDone 1%nat) eqn:C1.
  { rewrite D1. cbn. repeat split; first [lia | discriminate | now intros | exact H0 | now apply H0]. }
  assert (H1 : forall k, (1 <= k < 2)%nat -> do k = DoError /\ ctxDone k = false).
  { intros k Hk. assert (k = 1%nat) as -> by lia. now split. }
  destruct (do 2%nat) as [| status2 decoded2] eqn:D2.
  2: { rewrite D2. repeat split;
         first [lia | discriminate | apply Hread | now intros | exact H1 | now apply H1]. }
  destruct (ctxDone 2%nat) eqn:C2.
  { rewrite D2. cbn. repeat split; first [lia | discriminate | now intros | exact H1 | now apply H1]. }
  assert (H2 : forall k, (1 <= k < 3)%nat -> do k = DoError /\ ctxDone k = false).
  { intros k Hk. assert (k = 1 \/ k = 2)%nat as [-> | ->] by lia; now split. }
  destruct (do 3%nat) as [| status3 decoded3] eqn:D3; rewrite D3.
  - cbn. repeat split; first [lia | discriminate | now intros | exact H2 | now apply H2].
  - repeat split; first [lia | discriminate | apply Hread | now intros | exact H2 | now apply H2].
Qed.

End FetchPoolsMore.

(* ===================================================================== *)
(** ** The statement of [ListPools] *)

Section ListPoolsMore.

Import models postgres.

Lemma sameText_refl (b : builder) : sameText b b.
Proof. now repeat split. Qed.

Lemma addCondition_sameText (set1 set2 : bool) (clause : nat -> string) (a1 a2 : arg)
    (b1 b2 : builder) :
  set1 = set2 -> sameText b1 b2 ->
  sameText (if set1 then addCondition clause a1 b1 else b1)
           (if set2 then addCondition clause a2 b2 else b2).
Proof.
  intros <- (Hq & Hc & Hn & Hl). destruct set1; [| now repeat split].
  unfold sameText, addCondition. cbn [query countQuery args argCount].
  rewrite Hq, Hc, Hn, !length_app, Hl. now repeat split.
Qed.

(** One [if] block of [applyFilters]: the two builders it yields have the
    same text, and the rest of the function is run on them. *)
Ltac next_filter :=
  match goal with
  | Hs : sameText ?x ?y, Hc : ?c1 = ?c2
    |- sameText (let u := if ?c1 then addCondition ?k ?a1 ?x else ?x in @?F u)
                (let v := if ?c2 then addCondition ?k ?a2 ?y else ?y in @?G v) =>
      let Hs' := fresh "Hsame" in
      pose proof (addCondition_sameText c1 c2 k a1 a2 x y Hc Hs) as Hs';
      change (sameText (F (if c1 then addCondition k a1 x else x))
                       (G (if c2 then addCondition k a2 y else y)));
      revert Hs'; clear Hs;
      generalize (if c1 then addCondition k a1 x else x);
      generalize (if c2 then addCondition k a2 y else y);
      intros ? ? Hs'; cbv beta
  end.

(** The text that [applyFilters] adds is fixed by which filters are set. *)
Lemma applyFilters_sameText (f1 f2 : PoolFilter.t) (b1 b2 : builder) :
  fst (fst (shape f1)) = fst (fst (shape f2)) ->
  sameText b1 b2 -> sameText (applyFilters f1 b1) (applyFilters f2 b2).
Proof.
  unfold shape. cbn [fst]. intros [= H1 H2 H3 H4 H5 H6 H7 H8 H9] Hsame.
  cbv delta [applyFilters]. cbv beta.
  do 8 next_filter.
  destruct (PoolFilter.StableCoin f1) as [s1 |], (PoolFilter.StableCoin f2) as [s2 |];
    try discriminate; [| assumption].
  now apply (addCondition_sameText true true).
Qed.

(** The select statement for the filter of [DetectHighScorePools] with the
    default thresholds. *)
Example ListPools_query_high_score :
  snd (ListPools_query (opportunity.highScoreFilter 100000 0.1))
  = (selectPools
     +:+ " AND apy >= $1 AND tvl >= $2 ORDER BY score DESC LIMIT $3 OFFSET $4",
     [ArgDecimal 0.1; ArgDecimal 100000; ArgInt 100; ArgInt 0]).
Proof.
  unfold ListPools_query, applyFilters, opportunity.highScoreFilter, nonZero, NewFromFloat.
  cbn [PoolFilter.Chain PoolFilter.Protocol PoolFilter.Symbol PoolFilter.Search
       PoolFilter.MinAPY PoolFilter.MaxAPY PoolFilter.MinTVL PoolFilter.MaxTVL
       PoolFilter.StableCoin PoolFilter.Limit PoolFilter.Offset nonEmpty
       String.eqb negb].
  destruct (Req_dec_T 0.1 0) as [H | _]; [lra |].
  destruct (Req_dec_T 0 0) as [_ | H]; [| lra].
  destruct (Req_dec_T 100000 0) as [H | _]; [lra |].
  reflexivity.
Qed.

(** X30.  The two statements that [ListPools] sends are fixed, as texts, by
    which filters are set and by the sort column and direction, which are
    one of tvl, apy, score and one of ASC, DESC: no value of the filter is
    ever spliced into the text, the values travel as bound arguments, and
    their number is fixed as well.  The arguments are fixed by the values of
    the filters other than [MinScore]: a minimum score changes neither the
    text nor the arguments, so [ListPools] never filters on the score. *)
Theorem ListPools_query_fixed_text (f1 f2 : PoolFilter.t) :
  shape f1 = shape f2 ->
  fst (fst (ListPools_query f1)) = fst (fst (ListPools_query f2))
  /\ fst (snd (ListPools_query f1)) = fst (snd (ListPools_query f2))
  /\ length (snd (fst (ListPools_query f1))) = length (snd (fst (ListPools_query f2)))
  /\ length (snd (snd (ListPools_query f1))) = length (snd (snd (ListPools_query f2)))
  /\ sortColumn f1 ∈ ["tvl"; "apy"; "score"]%string
  /\ sortOrder f1 ∈ ["ASC"; "DESC"]%string
  /\ (values f1 = values f2 -> ListPools_query f1 = ListPools_query f2).
Proof.
  intros Hshape.
  assert (Hflags : fst (fst (shape f1)) = fst (fst (shape f2))) by now rewrite Hshape.
  assert (Hcol : sortColumn f1 = sortColumn f2).
  { change (snd (fst (shape f1)) = snd (fst (shape f2))). now rewrite Hshape. }
  assert (Hord : sortOrder f1 = sortOrder f2).
  { change (snd (shape f1) = snd (shape f2)). now rewrite Hshape. }
  pose proof (applyFilters_sameText f1 f2 _ _ Hflags
                (sameText_refl
                   (mkBuilder selectPools "SELECT COUNT(*) FROM pools WHERE 1=1" [] 0)))
    as (Hq & Hc & Hn & Hl).
  unfold ListPools_query. cbv zeta. cbn [fst snd].
  rewrite Hq, Hc, Hn, Hcol, Hord, !length_app, Hl.
  split; [reflexivity |]. split; [reflexivity |]. split; [reflexivity |].
  split; [reflexivity |].
  split.
  { rewrite <- Hcol. unfold sortColumn.
    repeat match goal with |- context [String.eqb ?a ?b] => destruct (String.eqb a b) end;
      apply (bool_decide_unpack _); vm_compute; exact I. }
  split.
  { rewrite <- Hord. unfold sortOrder.
    destruct (String.eqb _ _); apply (bool_decide_unpack _); vm_compute; exact I. }
  intros Hvalues.
  assert (Happly : forall b, applyFilters f1 b = applyFilters f2 b).
  { intros b. unfold values in Hvalues.
    injection Hvalues as Hchain Hprotocol Hsymbol Hsearch Hmin Hmax Hmint Hmaxt Hstable _ _.
    unfold applyFilters.
    now rewrite Hchain, Hprotocol, Hsymbol, Hsearch, Hmin, Hmax, Hmint, Hmaxt, Hstable. }
  unfold values in Hvalues.
  injection Hvalues as _ _ _ _ _ _ _ _ _ Hlimit Hoffset.
  now rewrite Happly, Hlimit, Hoffset.
Qed.

(** X30, witness: the filter of [DetectHighScorePools] with the default
    thresholds, and the same filter without its minimum score of 70: the
    same statements and the same arguments. *)
Lemma ListPools_query_fixed_text_high_score :
  ListPools_query (opportunity.highScoreFilter 100000 0.1)
  = ListPools_query
      (PoolFilter.mk EmptyString EmptyString EmptyString EmptyString
         0.1%R 0%R 100000%R 0%R 0%R None "score" "desc" 100%Z 0%Z).
Proof.
  apply (ListPools_query_fixed_text (opportunity.highScoreFilter 100000 0.1)
           (PoolFilter.mk EmptyString EmptyString EmptyString EmptyString
              0.1%R 0%R 100000%R 0%R 0%R None "score" "desc" 100%Z 0%Z));
    reflexivity.
Defined.

End ListPoolsMore.
